(** * The templ development proxy (cmd/templ/generatecmd/proxy/proxy.go)

    A shallow embedding of the response rewriter ([modifyResponse] and its
    two modifiers), of the retrying transport ([RoundTrip]) and of
    [NotifyProxy], with the properties the specification states about them.

    Conventions.
    - A Go [string] or [[]byte] is a [list byte]; header names and values,
      which the code only compares and prints, are [string]s.
    - An [io.ReadCloser] is a handle into a heap of stream states, so that a
      stream read through one reference is seen consumed through every other.
    - Effects (stream reads, sleeps, calls of the network transport) are
      recorded, in order, in a trace.
    - What the program imports from outside the repository (compress/gzip,
      http.DefaultTransport, http.NewRequest, http.DefaultClient) is taken as
      a parameter; the small pure helpers of the Go library it calls
      (strings.Index, Count, Replace, HasPrefix, strconv.Itoa,
      textproto.CanonicalMIMEHeaderKey) are written out. *)

From Stdlib Require Import ZArith QArith Qround Qpower List Lia.
From Stdlib.Strings Require Import String Ascii Byte.
From Stdlib Require Import DecimalString.
From stdpp Require Import base option list gmap strings.

Import ListNotations.
Local Open Scope Z_scope.
Local Open Scope list_scope.

(** ** Bytes *)

Abbreviation byte := Byte.byte.

Definition bytes_of (s : string) : list byte := list_byte_of_string s.

#[global] Instance byte_eq_dec : EqDecision byte := Byte.byte_eq_dec.

(** ** The Go [strings] helpers the proxy calls *)

Module strings.

(** [strings.HasPrefix] on byte strings. *)
Fixpoint HasPrefix (s prefix : list byte) {struct prefix} : bool :=
  match prefix, s with
  | [], _ => true
  | _ :: _, [] => false
  | p :: prefix', c :: s' => if decide (p = c) then HasPrefix s' prefix' else false
  end.

(** [strings.Index]: the offset of the first instance of [substr] in [s];
    [None] stands for Go's -1. *)
Fixpoint Index (s substr : list byte) : option nat :=
  if HasPrefix s substr then Some 0%nat
  else match s with
       | [] => None
       | _ :: s' => S <$> Index s' substr
       end.

(** [strings.Count] for a pattern that is not empty: the loop
<<
    for { i := Index(s, substr); if i == -1 { return n }
          n++; s = s[i+len(substr):] }
>>
    Every round drops at least one byte of [s], so [length s] rounds and
    one more for the closing test are enough. *)
Fixpoint Count_loop (fuel : nat) (s substr : list byte) (n : nat) : nat :=
  match fuel with
  | O => n
  | S fuel' =>
      match Index s substr with
      | None => n
      | Some i => Count_loop fuel' (drop (i + length substr) s) substr (S n)
      end
  end.

Definition Count (s substr : list byte) : nat :=
  Count_loop (S (length s)) s substr 0.

(** The replacement loop of [strings.Replace]
<<
    start := 0
    for i := 0; i < n; i++ {
      j := start + Index(s[start:], old)
      b.WriteString(s[start:j]); b.WriteString(new)
      start = j + len(old)
    }
    b.WriteString(s[start:])
>>
    on the part of [s] from [start] on.  [n] never exceeds [Count s old],
    so [Index] finds an instance in every round ([Count_loop_Index]). *)
Fixpoint Replace_loop (n : nat) (s old new : list byte) : list byte :=
  match n with
  | O => s
  | S n' =>
      match Index s old with
      | None => s
      | Some j => take j s ++ new ++ Replace_loop n' (drop (j + length old) s) old new
      end
  end.

(** [strings.Replace(s, old, new, n)] for a pattern [old] that is not empty,
    as the proxy calls it; a negative [n] means no limit. *)
Definition Replace (s old new : list byte) (n : Z) : list byte :=
  if decide (old = new) then s
  else if decide (n = 0) then s
  else
    let m := Count s old in
    if decide (m = 0%nat) then s
    else
      let n' := if decide (n < 0 \/ Z.of_nat m < n) then m else Z.to_nat n in
      Replace_loop n' s old new.

End strings.

(** ** The script tag and its insertion *)

Definition dquote : string := String (ascii_of_nat 34) EmptyString.

(** [const scriptTag = `<script src="/_templ/reload/script.js"></script>`] *)
Definition scriptTag : list byte :=
  bytes_of ("<script src=" ++ dquote ++ "/_templ/reload/script.js" ++ dquote ++ "></script>")%string.

Definition bodyClose : list byte := bytes_of "</body>".

Definition insertScriptTagIntoBody (body : list byte) : list byte :=
  strings.Replace body bodyClose (scriptTag ++ bodyClose) (-1).

(** The insertion rule in the words of the specification: going through the
    body byte by byte, the markup [ins] is put once in front of every position
    at which an instance of [tag] starts, and every byte is copied. *)
Fixpoint insert_before_each (tag ins s : list byte) : list byte :=
  match s with
  | [] => []
  | c :: s' =>
      (if strings.HasPrefix s tag then ins else []) ++ c :: insert_before_each tag ins s'
  end.

(** The offsets at which an instance of [tag] starts in [s]. *)
Fixpoint occurrences (tag s : list byte) (at_ : nat) : list nat :=
  match s with
  | [] => []
  | _ :: s' =>
      (if strings.HasPrefix s tag then [at_] else []) ++ occurrences tag s' (S at_)
  end.

(** ** Headers

    [http.Header] is a map from canonical header names to lists of values;
    [Get] and [Set] canonicalise the name they are given. *)

Module textproto.

Definition isLower (c : ascii) : bool :=
  let n := nat_of_ascii c in ((97 <=? n) && (n <=? 122))%nat.
Definition isUpper (c : ascii) : bool :=
  let n := nat_of_ascii c in ((65 <=? n) && (n <=? 90))%nat.
Definition isDigit (c : ascii) : bool :=
  let n := nat_of_ascii c in ((48 <=? n) && (n <=? 57))%nat.

(** The token bytes of RFC 7230. *)
Definition validHeaderFieldByte (c : ascii) : bool :=
  isLower c || isUpper c || isDigit c
  || bool_decide (c ∈ list_ascii_of_string "!#$%&'*+-.^_`|~").

Definition toUpper (c : ascii) : ascii := ascii_of_nat (nat_of_ascii c - 32).
Definition toLower (c : ascii) : ascii := ascii_of_nat (nat_of_ascii c + 32).

(** Upper case for the first letter and for a letter after a dash, lower
    case for the others. *)
Fixpoint canonicalize (upper : bool) (s : string) : string :=
  match s with
  | EmptyString => EmptyString
  | String c s' =>
      let c' := if upper && isLower c then toUpper c
                else if negb upper && isUpper c then toLower c
                else c in
      String c' (canonicalize (bool_decide (c' = "-"%char)) s')
  end.

(** [textproto.CanonicalMIMEHeaderKey]: a name with a byte that is not a
    token byte is returned unchanged. *)
Definition CanonicalMIMEHeaderKey (s : string) : string :=
  if forallb validHeaderFieldByte (list_ascii_of_string s)
  then canonicalize true s else s.

End textproto.

Module strconv.
(** [strconv.Itoa]: decimal digits, with a minus sign when negative. *)
Definition Itoa (n : Z) : string := NilZero.string_of_int (Z.to_int n).
End strconv.

Abbreviation Header := (gmap string (list string)).

Definition Header_Get (h : Header) (key : string) : string :=
  match h !! textproto.CanonicalMIMEHeaderKey key with
  | Some (v :: _) => v
  | _ => ""%string
  end.

Definition Header_Set (h : Header) (key value : string) : Header :=
  <[textproto.CanonicalMIMEHeaderKey key := [value]]> h.

(** ** Errors, streams, requests and responses *)

(** Go errors, by where they come from. *)
Inductive error : Type :=
| errorString (msg : string)      (* fmt.Errorf, errors.New *)
| netError (msg : string)         (* http.DefaultTransport, http.DefaultClient *)
| readError (msg : string)        (* Read on a body stream *)
| gzipError (msg : string)        (* compress/gzip and compress/flate *)
| urlError (msg : string).        (* http.NewRequest *)

#[global] Instance error_eq_dec : EqDecision error.
Proof. solve_decision. Defined.

(** The state of a byte stream: the bytes not read yet, and how the stream
    ends after them, with [io.EOF] ([None]) or with an error. *)
Record Reader : Type := mkReader {
  unread : list byte;
  failure : option error
}.

#[global] Instance Reader_eq_dec : EqDecision Reader.
Proof. solve_decision. Defined.

Abbreviation handle := nat.

(** The [Body] field of a request: [nil], the [http.NoBody] value, or a stream. *)
Inductive BodyRef : Type :=
| nilBody
| NoBody
| streamBody (h : handle).

#[global] Instance BodyRef_eq_dec : EqDecision BodyRef.
Proof. solve_decision. Defined.

Record Request : Type := mkRequest {
  Method : string;
  URL : string;
  ReqHeader : Header;
  ReqBody : BodyRef;
  ReqContentLength : Z
}.

Record Response : Type := mkResponse {
  StatusCode : Z;
  RespHeader : Header;
  Body : handle;
  ContentLength : Z
}.

(** What the program does to the outside, in order. *)
Inductive Event : Type :=
| EvRead (h : handle)                                   (* bytes are read from stream [h] *)
| EvClose (h : handle)                                  (* [Close] of stream [h] *)
| EvSleep (d : Z)                                       (* [time.Sleep(d)], in nanoseconds *)
| EvRoundTrip (req : Request) (payload : option (list byte)).
                                                        (* a call of the network transport *)

Record World : Type := mkWorld {
  heap : list Reader;
  trace : list Event
}.

(** ** The state monad of the embedding *)

Definition M (A : Type) : Type := World -> A * World.

Definition ret {A} (a : A) : M A := fun w => (a, w).
Definition bind {A B} (m : M A) (k : A -> M B) : M B :=
  fun w => let (a, w') := m w in k a w'.

Notation "'let*' x ':=' m 'in' k" := (bind m (fun x => k))
  (at level 10, x name, m at level 100, k at level 200).
Notation "'let*' ' p ':=' m 'in' k" := (bind m (fun x => match x with p => k end))
  (at level 10, p pattern, m at level 100, k at level 200).

Definition emit (e : Event) : M unit :=
  fun w => (tt, mkWorld (heap w) (trace w ++ [e])).

(** A new in-memory reader over [data]: [strings.NewReader], [bytes.NewReader]
    or a [bytes.Buffer], wrapped by [io.NopCloser]. *)
Definition NewReader (data : list byte) : M handle :=
  fun w => (length (heap w), mkWorld (heap w ++ [mkReader data None]) (trace w)).

Definition errInvalidStream : error := readError "invalid stream".

(** Run a transition of the stream behind [h]; reading through a handle that
    names no stream fails. *)
Definition on_stream {A} (h : handle) (f : Reader -> Reader * A) (bad : A) : M A :=
  fun w =>
    match heap w !! h with
    | Some rd => let (rd', a) := f rd in
                 (a, mkWorld (<[h := rd']> (heap w)) (trace w ++ [EvRead h]))
    | None => (bad, w)
    end.

(** [io.ReadAll]: every byte up to the end of the stream, and the error the
    stream ends with, if any. *)
Definition drain (rd : Reader) : Reader * (list byte * option error) :=
  (mkReader [] (failure rd), (unread rd, failure rd)).

Definition io_ReadAll (h : handle) : M (list byte * option error) :=
  on_stream h drain ([], Some errInvalidStream).

Definition Close (h : handle) : M unit := emit (EvClose h).

Definition time_Sleep (d : Z) : M unit := emit (EvSleep d).

(** ** compress/gzip, as the proxy uses it

    The package is outside the repository.  Its reader works on the state of
    the stream it is given and leaves that stream advanced by what it has
    read; its writer fills an in-memory buffer. *)

Class Gzip : Type := {
  gzReader : Type;
  (** [gzip.NewReader(r)] reads the member header from [r]. *)
  gz_NewReader : Reader -> Reader * (gzReader + error);
  (** [io.ReadAll(z)] for a [*gzip.Reader] [z] over the stream. *)
  gz_ReadAll : gzReader -> Reader -> Reader * (list byte * option error);
  gzWriter : Type;
  (** [gzip.NewWriter(&buf)] followed by [Write(p)]. *)
  gz_Write : list byte -> gzWriter * option error;
  (** [Close()]: the error, and what [buf] then holds. *)
  gz_Close : gzWriter -> list byte * option error
}.

(** What was written and closed without error reads back as it was written. *)
Definition gzip_round_trip `{Gzip} : Prop :=
  forall (p z : list byte) (gw : gzWriter),
    gz_Write p = (gw, None) ->
    gz_Close gw = (z, None) ->
    exists rd1 g rd2,
      gz_NewReader (mkReader z None) = (rd1, inl g) /\
      gz_ReadAll g rd1 = (rd2, (p, None)).

(** Decompression of the whole stream state [rd], as a caller sees it: the
    two steps [updateGzipResponse] takes to obtain the plain body. *)
Definition gunzip `{Gzip} (rd : Reader) : list byte + error :=
  match gz_NewReader rd with
  | (_, inr e) => inr e
  | (rd1, inl g) =>
      match gz_ReadAll g rd1 with
      | (_, (_, Some e)) => inr e
      | (_, (p, None)) => inl p
      end
  end.

(** ** The response rewriter *)

Section Rewriter.

Context `{Gzip}.

Definition gzip_NewReader (h : handle) : M (gzReader + error) :=
  on_stream h gz_NewReader (inr errInvalidStream).

Definition gzip_ReadAll (g : gzReader) (h : handle) : M (list byte * option error) :=
  on_stream h (gz_ReadAll g) ([], Some errInvalidStream).

Definition set_body (r : Response) (h : handle) (len : nat) : Response :=
  {| StatusCode := StatusCode r;
     RespHeader := Header_Set (RespHeader r) "Content-Length" (strconv.Itoa (Z.of_nat len));
     Body := h;
     ContentLength := Z.of_nat len |}.

Definition updateGzipResponse (r : Response) : M (Response * option error) :=
  let* res := gzip_NewReader (Body r) in
  match res with
  | inr err => ret (r, Some err)
  | inl plainr =>
      let* '(body, err) := gzip_ReadAll plainr (Body r) in
      match err with
      | Some err => ret (r, Some err)
      | None =>
          let updated := insertScriptTagIntoBody body in
          let '(gzw, err) := gz_Write updated in
          match err with
          | Some err => ret (r, Some err)
          | None =>
              let '(buf, err) := gz_Close gzw in
              match err with
              | Some err => ret (r, Some err)
              | None =>
                  let* h := NewReader buf in
                  ret (set_body r h (length buf), None)
              end
          end
      end
  end.

Definition updatePlainResponse (r : Response) : M (Response * option error) :=
  let* '(body, err) := io_ReadAll (Body r) in
  match err with
  | Some err => ret (r, Some err)
  | None =>
      let updated := insertScriptTagIntoBody body in
      let* h := NewReader updated in
      ret (set_body r h (length updated), None)
  end.

Definition modifyResponse (r : Response) : M (Response * option error) :=
  if decide (Header_Get (RespHeader r) "templ-skip-modify" = "true"%string) then
    ret (r, None)
  else
    let contentType := Header_Get (RespHeader r) "Content-Type" in
    if negb (strings.HasPrefix (bytes_of contentType) (bytes_of "text/html")) then
      ret (r, None)
    else
      let modifier :=
        if decide (Header_Get (RespHeader r) "Content-Encoding" = "gzip"%string)
        then updateGzipResponse else updatePlainResponse in
      modifier r.

End Rewriter.

(** ** The retrying transport *)

(** [time.Duration] and [int] arithmetic is on 64-bit integers. *)
Definition int64 (z : Z) : Z := (z + 2 ^ 63) mod 2 ^ 64 - 2 ^ 63.

Module math.
(** [math.Pow(x, float64(k))] for an integer [k >= 0].  A [float64] is
    taken as the rational it denotes and the power is exact; for the
    exponent 1.5 of the proxy and k < 10 every power is a dyadic rational
    of fewer than 53 significant bits, so that [float64] arithmetic is
    exact there as well. *)
Definition Pow (x : Q) (k : Z) : Q := Qred (Qpower x k).
End math.

Module time.
Abbreviation Duration := Z.
Definition Millisecond : Duration := 1000000.
(** The conversion [time.Duration(f)] of a [float64]: the fraction is
    discarded.  (Go leaves the result open for a value that does not fit in
    64 bits; none arises under the policy of the proxy.) *)
Definition Duration_of_float (f : Q) : Duration := int64 (Z.quot (Qnum f) (Zpos (Qden f))).
End time.

Record roundTripper : Type := mkRoundTripper {
  maxRetries : Z;
  initialDelay : time.Duration;
  backoffExponent : Q
}.

(** The transport [New] installs in the reverse proxy. *)
Definition New_Transport : roundTripper :=
  {| maxRetries := 10;
     initialDelay := 100 * time.Millisecond;
     backoffExponent := 3 # 2 |}.

(** What the network answers to one call of [http.DefaultTransport.RoundTrip]:
    a transport-level error, or a response of any status with its body. *)
Record Reply : Type := mkReply {
  replyStatus : Z;
  replyHeader : Header;
  replyBody : Reader;
  replyContentLength : Z
}.

Definition Outcome : Type := string + Reply.

Definition is_call (e : Event) : bool :=
  match e with EvRoundTrip _ _ => true | _ => false end.

(** The transport calls made so far. *)
Definition calls (tr : list Event) : nat := length (filter is_call tr).

(** The durations slept so far. *)
Definition sleeps (tr : list Event) : list Z :=
  omap (fun e => match e with EvSleep d => Some d | _ => None end) tr.

Definition slept (tr : list Event) : Z := foldr Z.add 0 (sleeps tr).

(** The requests handed to the network so far, with the body bytes each
    offered. *)
Definition sent (tr : list Event) : list (Request * option (list byte)) :=
  omap (fun e => match e with EvRoundTrip q b => Some (q, b) | _ => None end) tr.

Section Transport.

(** The network: its answer to the first, second, ... call. *)
Variable network : nat -> Outcome.

Definition payload (w : World) (b : BodyRef) : option (list byte) :=
  match b with
  | streamBody h => unread <$> heap w !! h
  | _ => None
  end.

(** [http.DefaultTransport.RoundTrip(req)]: either an error or a response,
    whose body is a new stream. *)
Definition DefaultTransport_RoundTrip (req : Request) : M (Response + error) :=
  fun w =>
    let w1 := mkWorld (heap w) (trace w ++ [EvRoundTrip req (payload w (ReqBody req))]) in
    match network (calls (trace w)) with
    | inl msg => (inr (netError msg), w1)
    | inr a =>
        let resp := {| StatusCode := replyStatus a;
                       RespHeader := replyHeader a;
                       Body := length (heap w);
                       ContentLength := replyContentLength a |} in
        (inl resp, mkWorld (heap w ++ [replyBody a]) (trace w1))
    end.

Definition setShouldSkipResponseModificationHeader (r : Request) (resp : Response) : Response :=
  if decide (Header_Get (ReqHeader r) "HX-Request" <> "true"%string) then resp
  else {| StatusCode := StatusCode resp;
          RespHeader := Header_Set (RespHeader resp) "templ-skip-modify" "true";
          Body := Body resp;
          ContentLength := ContentLength resp |}.

(** [r.Clone(ctx)]: the header map is copied, the [Body] field is shared. *)
Definition Clone (r : Request) : Request := r.

Definition with_body (r : Request) (h : handle) : Request :=
  {| Method := Method r; URL := URL r; ReqHeader := ReqHeader r;
     ReqBody := streamBody h; ReqContentLength := ReqContentLength r |}.

Definition backoff (rt : roundTripper) (retries : Z) : time.Duration :=
  int64 (initialDelay rt * time.Duration_of_float (math.Pow (backoffExponent rt) retries)).

(** The loop [for retries := 0; retries < rt.maxRetries; retries++]: [todo]
    is the number of rounds left, [maxRetries - retries]. *)
Fixpoint retry (rt : roundTripper) (r : Request) (bodyBytes : option (list byte))
         (todo : nat) (retries : Z) : M (option Response * option error) :=
  match todo with
  | O => ret (None, Some (errorString "max retries reached"))
  | S todo' =>
      let req := Clone r in
      let* req := match bodyBytes with
                  | Some b => let* h := NewReader b in ret (with_body req h)
                  | None => ret req
                  end in
      let* res := DefaultTransport_RoundTrip req in
      match res with
      | inr _ =>
          let* _ := time_Sleep (backoff rt retries) in
          retry rt r bodyBytes todo' (retries + 1)
      | inl resp =>
          ret (Some (setShouldSkipResponseModificationHeader r resp), None)
      end
  end.

Definition RoundTrip (rt : roundTripper) (r : Request) : M (option Response * option error) :=
  let* buffered :=
    match ReqBody r with
    | streamBody h =>
        let* '(bodyBytes, err) := io_ReadAll h in
        match err with
        | Some err => ret (inr err)
        | None => let* _ := Close h in ret (inl (Some bodyBytes))
        end
    | _ => ret (inl None)
    end in
  match buffered with
  | inr err => ret (None, Some err)
  | inl bodyBytes => retry rt r bodyBytes (Z.to_nat (maxRetries rt)) 0
  end.

End Transport.

(** ** [NotifyProxy] *)

Section Notify.

(** [http.NewRequest(method, url, nil)] and [http.DefaultClient.Do(req)],
    both outside the repository. *)
Variable http_NewRequest : string -> string -> Request + error.
Variable DefaultClient_Do : Request -> option Response * option error.

Definition NotifyProxy (host : string) (port : Z) : option error :=
  let urlStr := ("http://" ++ host ++ ":" ++ strconv.Itoa port ++ "/_templ/reload/events")%string in
  match http_NewRequest "POST" urlStr with
  | inr err => Some err
  | inl req => snd (DefaultClient_Do req)
  end.

End Notify.

(** ** The handler

    [ServeHTTP] and [SendSSE] only dispatch to collaborators that are outside
    these sources: the response writer, the SSE handler of the repository
    (package sse) and the reverse proxy.  A call of one of them is recorded,
    in order, as an action; it is not run. *)

(** [httputil.ReverseProxy], as [New] configures it. *)
Record ReverseProxy : Type := mkReverseProxy {
  ProxyTarget : string;
  ErrorLogPrefix : string;
  Transport : roundTripper;
  ModifyResponse : Response -> M (Response * option error)
}.

(** The handler.  Its field [sse], a handler of package sse, is not
    represented: the calls made through it are the actions [sse_ServeHTTP]
    and [sse_Send] below. *)
Record Handler : Type := mkHandler {
  HandlerURL : string;
  Target : string;
  p : ReverseProxy
}.

Definition New `{Gzip} (bind : string) (port : Z) (target : string) : Handler :=
  let p := {| ProxyTarget := target;
              ErrorLogPrefix := "Proxy to target error: ";
              Transport := New_Transport;
              ModifyResponse := modifyResponse |} in
  {| HandlerURL := ("http://" ++ bind ++ ":" ++ strconv.Itoa port)%string;
     Target := target;
     p := p |}.

Inductive Action : Type :=
| Header_Add (key value : string)               (* w.Header().Add(key, value) *)
| WriteString (s : list byte)                   (* io.WriteString(w, s) *)
| Printf (line : string)                        (* fmt.Printf *)
| sse_ServeHTTP (r : Request)                   (* p.sse.ServeHTTP(w, r) *)
| sse_Send (eventType data : string)            (* p.sse.Send(eventType, data) *)
| http_Error (msg : string) (code : Z)          (* http.Error(w, msg, code) *)
| proxy_ServeHTTP (rp : ReverseProxy) (r : Request).   (* p.p.ServeHTTP(w, r) *)

(** The text of an error, [err.Error()]. *)
Definition Error (e : error) : string :=
  match e with
  | errorString msg | netError msg | readError msg | gzipError msg | urlError msg => msg
  end.

Definition newline : string := String (ascii_of_nat 10) EmptyString.

Section ServeHTTP.

(** The embedded file script.js, which is not part of these sources, and
    what the response writer answers to the write of the script. *)
Variable script : list byte.
Variable write_error : option error.

(** [path] is [r.URL.Path]. *)
Definition ServeHTTP (h : Handler) (path : string) (r : Request) : list Action :=
  if decide (path = "/_templ/reload/script.js"%string) then
    [Header_Add "Content-Type" "text/javascript"; WriteString script] ++
    match write_error with
    | Some err => [Printf ("failed to write script: " ++ Error err ++ newline)%string]
    | None => []
    end
  else if decide (path = "/_templ/reload/events"%string) then
    if decide (Method r = "GET"%string) then [sse_ServeHTTP r]
    else if decide (Method r = "POST"%string) then [sse_Send "message" "reload"]
    else [http_Error "only GET or POST method allowed" 405]
  else [proxy_ServeHTTP (p h) r].

End ServeHTTP.

Definition SendSSE (h : Handler) (eventType data : string) : list Action :=
  [sse_Send eventType data].

(** ** A gzip codec with stored blocks

    An instance of the interface above to compute with: the ten-byte member
    header that [gzip.Writer] emits by default, the data in stored (not
    compressed) deflate blocks of at most 65535 bytes, and the CRC-32 and
    length trailer.  Its reader pulls the stream through a 4096-byte buffer,
    as [gzip.NewReader] does for a stream that is not an [io.ByteReader],
    checks the header, and accepts members made of stored blocks; optional
    header fields and Huffman-coded blocks, which the Go reader also decodes,
    are refused by this instance. *)

Module StoredGzip.

Definition errHeader : error := gzipError "gzip: invalid header".
Definition errChecksum : error := gzipError "gzip: invalid checksum".
Definition errCorrupt : error := gzipError "flate: corrupt input".
Definition errUnsupported : error := gzipError "only stored blocks and plain headers are decoded".
Definition EOF : error := readError "EOF".
Definition ErrUnexpectedEOF : error := readError "unexpected EOF".

Definition byte_of_N (n : N) : byte := default x00 (Byte.of_N (n mod 256)).

Definition le16 (n : N) : list byte := [byte_of_N n; byte_of_N (n / 256)].
Definition le32 (n : N) : list byte :=
  [byte_of_N n; byte_of_N (n / 256); byte_of_N (n / 65536); byte_of_N (n / 16777216)].

Definition un16 (b0 b1 : byte) : N := (Byte.to_N b0 + 256 * Byte.to_N b1)%N.
Definition un32 (b0 b1 b2 b3 : byte) : N :=
  (Byte.to_N b0 + 256 * Byte.to_N b1 + 65536 * Byte.to_N b2 + 16777216 * Byte.to_N b3)%N.

(** CRC-32 (IEEE 802.3), bit by bit. *)
Definition crc_step (crc : N) : N :=
  if N.odd crc then N.lxor (N.shiftr crc 1) 3988292384 else N.shiftr crc 1.
Definition crc_byte (crc : N) (x : byte) : N :=
  Nat.iter 8 crc_step (N.lxor crc (Byte.to_N x)).
Definition crc32 (p : list byte) : N :=
  N.lxor (fold_left crc_byte p 4294967295%N) 4294967295%N.

(** ID1 ID2 CM FLG MTIME(4) XFL OS *)
Definition header : list byte := [x1f; x8b; x08; x00; x00; x00; x00; x00; x00; xff].

Definition trailer (p : list byte) : list byte :=
  le32 (crc32 p) ++ le32 (N.of_nat (length p) mod 4294967296).

(** The most a stored block carries: 65535 bytes. *)
Definition blockMax : nat := N.to_nat 65535.

(** The deflate stream: every block but the last is full. *)
Fixpoint blocks (fuel : nat) (p : list byte) : list byte :=
  match fuel with
  | O => []
  | S fuel' =>
      if (N.of_nat (length p) <=? 65535)%N
      then [x01] ++ le16 (N.of_nat (length p)) ++ le16 (65535 - N.of_nat (length p)) ++ p
      else [x00] ++ le16 65535 ++ le16 0 ++ take blockMax p ++ blocks fuel' (drop blockMax p)
  end.

Definition compress (p : list byte) : list byte :=
  header ++ blocks (S (length p)) p ++ trailer p.

(** Stored blocks up to a final one: the data and what follows the stream. *)
Fixpoint inflate (fuel : nat) (inp : list byte) : (list byte * list byte) + error :=
  match fuel with
  | O => inr errCorrupt
  | S fuel' =>
      match inp with
      | hd :: l0 :: l1 :: n0 :: n1 :: data =>
          let btype := ((Byte.to_N hd / 2) mod 4)%N in
          let final := N.odd (Byte.to_N hd) in
          let len := N.to_nat (un16 l0 l1) in
          if negb (btype =? 0)%N then
            inr (if (btype =? 3)%N then errCorrupt else errUnsupported)
          else if negb (un16 l0 l1 + un16 n0 n1 =? 65535)%N then inr errCorrupt
          else if (length data <? len)%nat then inr ErrUnexpectedEOF
          else if final then inl (take len data, drop len data)
          else match inflate fuel' (drop len data) with
               | inl (out, rest) => inl (take len data ++ out, rest)
               | inr e => inr e
               end
      | _ => inr ErrUnexpectedEOF
      end
  end.

(** The deflate stream and the trailer of one member. *)
Definition member_body (inp : list byte) : (list byte * list byte) + error :=
  match inflate (S (length inp)) inp with
  | inr e => inr e
  | inl (out, c0 :: c1 :: c2 :: c3 :: s0 :: s1 :: s2 :: s3 :: rest) =>
      if ((un32 c0 c1 c2 c3 =? crc32 out) &&
          (un32 s0 s1 s2 s3 =? N.of_nat (length out) mod 4294967296))%N
      then inl (out, rest) else inr errChecksum
  | inl _ => inr ErrUnexpectedEOF
  end.

(** The fixed part of a member header. *)
Definition read_header (inp : list byte) : list byte + error :=
  match inp with
  | i1 :: i2 :: cm :: flg :: _ :: _ :: _ :: _ :: _ :: _ :: rest =>
      if negb (bool_decide (i1 = x1f /\ i2 = x8b /\ cm = x08)) then inr errHeader
      else if negb (bool_decide (flg = x00)) then inr errUnsupported
      else inl rest
  | [] => inr EOF
  | _ => inr ErrUnexpectedEOF
  end.

(** The members that follow the first one, to the end of the input. *)
Fixpoint more_members (fuel : nat) (inp : list byte) : list byte + error :=
  match fuel, inp with
  | _, [] => inl []
  | O, _ => inr errCorrupt
  | S fuel', _ =>
      match read_header inp with
      | inr e => inr e
      | inl inp1 =>
          match member_body inp1 with
          | inr e => inr e
          | inl (out, rest) =>
              match more_members fuel' rest with
              | inl outs => inl (out ++ outs)
              | inr e => inr e
              end
          end
      end
  end.

Definition bufSize : nat := 4096.

(** [gzip.NewReader]: fill the buffer from the stream, read the header.  A
    stream that ends inside the header ends the reader with the error of the
    stream, or with one of the two end-of-file errors. *)
Definition NewReader (rd : Reader) : Reader * (list byte + error) :=
  let buf := take bufSize (unread rd) in
  let rd' := mkReader (drop bufSize (unread rd)) (failure rd) in
  match read_header buf with
  | inl rest => (rd', inl rest)
  | inr e =>
      (rd', inr (if (length buf <? 10)%nat then default e (failure rd) else e))
  end.

(** [io.ReadAll] of the gzip reader: the buffered bytes, then the rest of
    the stream, decoded member after member.  The bytes decoded before an
    error are dropped, as the caller does. *)
Definition ReadAll (buffered : list byte) (rd : Reader) : Reader * (list byte * option error) :=
  let inp := buffered ++ unread rd in
  let res :=
    match member_body inp with
    | inr e => inr e
    | inl (out, rest) =>
        match more_members (length rest) rest with
        | inl outs => inl (out ++ outs)
        | inr e => inr e
        end
    end in
  (mkReader [] (failure rd),
   match res, failure rd with
   | inl out, None => (out, None)
   | inl _, Some e => ([], Some e)
   | inr e, None => ([], Some e)
   | inr _, Some e => ([], Some e)
   end).

#[global] Instance codec : Gzip := {
  gzReader := list byte;
  gz_NewReader := NewReader;
  gz_ReadAll := ReadAll;
  gzWriter := list byte;
  gz_Write p := (p, None);
  gz_Close p := (compress p, None)
}.

End StoredGzip.

(** ** Notions used to state the properties *)

(** A response that [modifyResponse] is meant to rewrite: HTML, and not
    tagged to skip. *)
Definition rewritable (r : Response) : Prop :=
  Header_Get (RespHeader r) "templ-skip-modify" <> "true"%string /\
  strings.HasPrefix (bytes_of (Header_Get (RespHeader r) "Content-Type")) (bytes_of "text/html") = true.

Definition gzip_encoded (r : Response) : bool :=
  bool_decide (Header_Get (RespHeader r) "Content-Encoding" = "gzip"%string).

(** The text a body stream carries for a response: the bytes of the stream,
    decompressed when the response is gzip-encoded. *)
Definition body_text `{Gzip} (r : Response) (rd : Reader) : option (list byte) :=
  if gzip_encoded r then
    match gunzip rd with inl p => Some p | inr _ => None end
  else
    match failure rd with None => Some (unread rd) | Some _ => None end.

(** The gzip writer accepts [p]. *)
Definition compresses `{Gzip} (p z : list byte) : Prop :=
  exists gw, gz_Write p = (gw, None) /\ gz_Close gw = (z, None).

(** Decompression of the body [rd], or recompression of the rewritten text,
    fails with [e]. *)
Definition gzip_fails `{Gzip} (rd : Reader) (e : error) : Prop :=
  gunzip rd = inr e \/
  exists p, gunzip rd = inl p /\
    ((exists gw, gz_Write (insertScriptTagIntoBody p) = (gw, Some e)) \/
     (exists gw z, gz_Write (insertScriptTagIntoBody p) = (gw, None) /\
                   gz_Close gw = (z, Some e))).

(** What [RoundTrip] buffers of the body of [r]: the bytes of a stream that
    can be read to its end, nothing for [nil] and [http.NoBody]. *)
Definition buffers (w : World) (r : Request) (bodyBytes : option (list byte)) : Prop :=
  match ReqBody r with
  | streamBody h => exists b, heap w !! h = Some (mkReader b None) /\ bodyBytes = Some b
  | _ => bodyBytes = None
  end.

(** The world once the body has been buffered. *)
Definition buffered (w : World) (r : Request) : World :=
  match ReqBody r with
  | streamBody h =>
      mkWorld (<[h := mkReader [] None]> (heap w)) (trace w ++ [EvRead h; EvClose h])
  | _ => w
  end.

(** One attempt: the request handed to the network when the next free handle
    is [hp], the body bytes it offers, and the stream it creates. *)
Definition attempt_request (r : Request) (bodyBytes : option (list byte)) (hp : handle) : Request :=
  match bodyBytes with Some _ => with_body r hp | None => r end.

Definition attempt_payload (hp : list Reader) (r : Request) (bodyBytes : option (list byte))
  : option (list byte) :=
  match bodyBytes with Some b => Some b | None => payload (mkWorld hp []) (ReqBody r) end.

Definition attempt_heap (bodyBytes : option (list byte)) : list Reader :=
  match bodyBytes with Some b => [mkReader b None] | None => [] end.

Definition attempt_call (w : World) (r : Request) (bodyBytes : option (list byte)) : Event :=
  EvRoundTrip (attempt_request r bodyBytes (length (heap w))) (attempt_payload (heap w) r bodyBytes).

(** The world after one failed attempt, and after [k] of them in a row, the
    first with loop counter [retries]. *)
Definition after_failure (rt : roundTripper) (r : Request) (bodyBytes : option (list byte))
    (retries : Z) (w : World) : World :=
  mkWorld (heap w ++ attempt_heap bodyBytes)
          (trace w ++ [attempt_call w r bodyBytes; EvSleep (backoff rt retries)]).

Fixpoint after_failures (rt : roundTripper) (r : Request) (bodyBytes : option (list byte))
    (k : nat) (retries : Z) (w : World) : World :=
  match k with
  | O => w
  | S k' => after_failures rt r bodyBytes k' (retries + 1) (after_failure rt r bodyBytes retries w)
  end.

(** The response built from the answer [a] of the network, with its body at
    handle [hp]. *)
Definition response_of (a : Reply) (hp : handle) : Response :=
  {| StatusCode := replyStatus a; RespHeader := replyHeader a;
     Body := hp; ContentLength := replyContentLength a |}.

(** The world after an attempt that the network answers with [a]. *)
Definition after_success (r : Request) (bodyBytes : option (list byte)) (a : Reply) (w : World)
  : World :=
  mkWorld (heap w ++ attempt_heap bodyBytes ++ [replyBody a])
          (trace w ++ [attempt_call w r bodyBytes]).

(** The first [k] answers of the network from call [from] on are errors. *)
Definition fails_from (network : nat -> Outcome) (from k : nat) : Prop :=
  forall i, (i < k)%nat -> exists msg, network (from + i)%nat = inl msg.

(** The waits of [k] failed attempts in a row, as the loop computes them. *)
Definition backoffs (rt : roundTripper) (k : nat) : list Z :=
  (fun i => backoff rt (Z.of_nat i)) <$> seq 0 k.

(** The wait the specification gives for [k] failed attempts:
    sum(initialDelay * backoffExponent^i for i in 0..k-1). *)
Definition specified_wait (rt : roundTripper) (k : nat) : Q :=
  foldr Qplus 0%Q ((fun i => inject_Z (initialDelay rt) * backoffExponent rt ^ Z.of_nat i)%Q <$> seq 0 k).

(** An event of the retry loop that replays the buffered bytes [b]: a sleep,
    or a call of the network with a clone of [r] whose body is a stream
    created after the first [lo] ones and offering exactly [b]. *)
Definition replays (r : Request) (lo : handle) (b : list byte) (e : Event) : Prop :=
  match e with
  | EvSleep _ => True
  | EvRoundTrip q pl => pl = Some b /\ exists hp, (lo <= hp)%nat /\ q = with_body r hp
  | _ => False
  end.

(** An event of the retry loop for a request without body: a sleep, or a
    call of the network with [r] as it is. *)
Definition passes_on (r : Request) (e : Event) : Prop :=
  match e with
  | EvSleep _ => True
  | EvRoundTrip q pl => q = r /\ pl = None
  | _ => False
  end.

Definition attempt_event (r : Request) (bodyBytes : option (list byte)) (hp0 : list Reader)
    (e : Event) : Prop :=
  match e with
  | EvSleep _ => True
  | EvRoundTrip q pl =>
      pl = attempt_payload hp0 r bodyBytes /\
      exists hp, (length hp0 <= hp)%nat /\ q = attempt_request r bodyBytes hp
  | _ => False
  end.

(** How a run of [modifyResponse] on [r] in [w] can end: the streams that
    were there stay in place and only the body of [r] may have changed; the
    trace grows by at most two reads of that body; and either the response
    comes back as it was and no stream is new, or there is no error and the
    response has a new body, the one new stream. *)
Definition modify_outcome (r : Response) (w : World)
    (r' : Response) (e : option error) (w' : World) : Prop :=
  exists (hp : list Reader) (tail : list Reader) (evs : list Event),
    heap w' = hp ++ tail /\
    length hp = length (heap w) /\
    (forall h, h <> Body r -> hp !! h = heap w !! h) /\
    trace w' = trace w ++ evs /\
    Forall (fun ev => ev = EvRead (Body r)) evs /\
    (length evs <= 2)%nat /\
    ((r' = r /\ tail = []) \/
     (e = None /\ exists new : list byte,
        tail = [mkReader new None] /\ r' = set_body r (length (heap w)) (length new))).

(** ** Sample inputs *)

Module Sample.

Definition page : list byte := bytes_of "<html><body>hi</body></html>".

Definition html_header : Header :=
  <["Content-Type" := ["text/html; charset=utf-8"%string]]> ∅.

Definition gzip_header : Header :=
  <["Content-Encoding" := ["gzip"%string]]> html_header.

Definition br_header : Header :=
  <["Content-Encoding" := ["br"%string]]> html_header.

Definition json_header : Header :=
  <["Content-Type" := ["application/json"%string]]> ∅.

Definition response (h : Header) : Response :=
  {| StatusCode := 200; RespHeader := h; Body := 0%nat; ContentLength := -1 |}.

(** A world whose only stream holds [b]. *)
Definition world (b : list byte) : World := mkWorld [mkReader b None] [].

Definition skip_header : Header :=
  <["Templ-Skip-Modify" := ["true"%string]]> html_header.

Definition get : Request :=
  {| Method := "GET"; URL := "http://localhost:8080/"; ReqHeader := ∅;
     ReqBody := NoBody; ReqContentLength := 0 |}.

Definition htmx_get : Request :=
  {| Method := "GET"; URL := "http://localhost:8080/"; ReqHeader := <["Hx-Request" := ["true"%string]]> ∅;
     ReqBody := NoBody; ReqContentLength := 0 |}.

(** A request whose body is the stream at handle 0. *)
Definition post : Request :=
  {| Method := "POST"; URL := "http://localhost:8080/"; ReqHeader := ∅;
     ReqBody := streamBody 0; ReqContentLength := -1 |}.

Definition reply (status : Z) (h : Header) (b : list byte) : Reply :=
  {| replyStatus := status; replyHeader := h; replyBody := mkReader b None;
     replyContentLength := -1 |}.

(** A network that refuses the first [k] connections and then answers [a]. *)
Definition refused_then (k : nat) (a : Reply) : nat -> Outcome :=
  fun i => if (i <? k)%nat then inl "dial tcp: connection refused"%string else inr a.

Definition always_refused : nat -> Outcome :=
  fun _ => inl "dial tcp: connection refused"%string.

Definition NewRequest (method url : string) : Request + error :=
  inl {| Method := method; URL := url; ReqHeader := ∅; ReqBody := nilBody;
         ReqContentLength := 0 |}.

(** A client whose exchange completes with a response of status [status]. *)
Definition Do (status : Z) (req : Request) : option Response * option error :=
  (Some {| StatusCode := status; RespHeader := ∅; Body := 0%nat; ContentLength := 0 |}, None).

End Sample.

(** * Properties *)

(** ** Facts about the [strings] helpers *)

Section StringsFacts.

Import strings.

Lemma HasPrefix_spec s p : HasPrefix s p = true <-> exists r, s = p ++ r.
Proof.
  revert s; induction p as [|a p IH]; intros s; simpl.
  - split; [intros _; by exists s | done].
  - destruct s as [|c s]; simpl.
    + split; [discriminate | intros [r Hr]; discriminate].
    + destruct (decide (a = c)) as [->|Hne].
      * rewrite IH. split; intros [r Hr]; exists r; congruence.
      * split; [discriminate | intros [r Hr]; congruence].
Qed.

Lemma HasPrefix_app p r : HasPrefix (p ++ r) p = true.
Proof. apply HasPrefix_spec; eauto. Qed.

Lemma HasPrefix_drop s p : HasPrefix s p = true -> s = p ++ drop (length p) s.
Proof.
  intros [r ->]%HasPrefix_spec. by rewrite drop_app_length.
Qed.

Lemma Index_None_cons a s p : Index (a :: s) p = None -> Index s p = None.
Proof.
  simpl. destruct (HasPrefix (a :: s) p); [discriminate|].
  destruct (Index s p); [discriminate | done].
Qed.

Lemma Index_None_HasPrefix s p : Index s p = None -> HasPrefix s p = false.
Proof. destruct s; simpl; destruct (HasPrefix _ p); done. Qed.

(** [Index] returns an offset at which the pattern does start, and it does
    not start at any smaller one. *)
Lemma Index_Some s p j :
  Index s p = Some j ->
  (j <= length s)%nat /\ HasPrefix (drop j s) p = true /\
  forall i, (i < j)%nat -> HasPrefix (drop i s) p = false.
Proof.
  revert j; induction s as [|a s IH]; intros j; simpl.
  - destruct (HasPrefix [] p) eqn:E; [|discriminate].
    intros [= <-]. split; [done|]. split; [done|]. intros i Hi; lia.
  - destruct (HasPrefix (a :: s) p) eqn:E.
    + intros [= <-]. split; [lia|]. split; [done|]. intros i Hi; lia.
    + destruct (Index s p) as [j'|] eqn:Ej; [|discriminate].
      intros [= <-]. destruct (IH j' eq_refl) as (Hl & Hp & Hlt).
      split; [simpl; lia|]. split; [done|].
      intros [|i] Hi; [done|]. apply Hlt. lia.
Qed.

Lemma Index_Some_le s p j : Index s p = Some j -> (j + length p <= length s)%nat.
Proof.
  intros (Hj & [r Hr]%HasPrefix_spec & _)%Index_Some.
  apply (f_equal length) in Hr. rewrite length_drop, length_app in Hr. lia.
Qed.

(** The loop of [Replace] never meets Go's -1: while the count of the rest
    is positive, [Index] finds an instance. *)
Lemma Count_loop_Index fuel s p n m :
  Count_loop fuel s p n = S m -> (n <= m)%nat -> is_Some (Index s p).
Proof.
  destruct fuel; simpl; [lia|].
  destruct (Index s p); [eauto | intros; lia].
Qed.

Lemma Count_loop_acc fuel s p n :
  Count_loop fuel s p n = (n + Count_loop fuel s p 0)%nat.
Proof.
  revert s n; induction fuel as [|fuel IH]; intros s n; simpl; [lia|].
  destruct (Index s p); [|lia].
  rewrite (IH _ (S n)), (IH _ 1%nat). lia.
Qed.

(** More fuel than [length s] changes nothing: the loop has returned. *)
Lemma Count_loop_fuel fuel s p :
  p <> [] -> (length s < fuel)%nat -> Count_loop fuel s p 0 = Count s p.
Proof.
  intros Hp. unfold Count.
  assert (H : forall f1 f2 t, (length t < f1)%nat -> (length t < f2)%nat ->
              Count_loop f1 t p 0 = Count_loop f2 t p 0).
  { induction f1 as [|f1 IH]; intros f2 t H1 H2; [lia|].
    destruct f2 as [|f2]; [lia|]. simpl.
    destruct (Index t p) as [j|] eqn:E; [|done].
    rewrite (Count_loop_acc f1), (Count_loop_acc f2). f_equal.
    pose proof (Index_Some_le _ _ _ E) as Hj.
    assert (0 < length p)%nat by (destruct p; [congruence | simpl; lia]).
    apply IH; rewrite length_drop; lia. }
  intros Hf. apply H; lia.
Qed.

End StringsFacts.

(** ** [Replace] against the byte-by-byte rule

    For a pattern whose first byte occurs nowhere else in it (as "<" in
    "</body>"), two instances never overlap, and the left-to-right scan of
    [strings.Replace] meets every one of them. *)

Section ReplaceEveryInstance.

Import strings.

Variables (c : byte) (t ins : list byte).
Hypothesis c_fresh : Forall (fun x => x <> c) t.

Local Notation old := (c :: t).

Lemma insert_inside (u r : list byte) :
  Forall (fun x => x <> c) u ->
  insert_before_each old ins (u ++ r) = u ++ insert_before_each old ins r.
Proof.
  induction 1 as [|a u Ha _ IH]; [done|].
  simpl. destruct (decide (c = a)) as [->|_]; [done|].
  simpl. by rewrite IH.
Qed.

Lemma insert_at_instance r :
  insert_before_each old ins (old ++ r) = ins ++ old ++ insert_before_each old ins r.
Proof.
  simpl. destruct (decide (c = c)); [|done].
  by rewrite (HasPrefix_app t r), insert_inside.
Qed.

Lemma insert_no_instance s :
  Index s old = None -> insert_before_each old ins s = s.
Proof.
  induction s as [|a s IH]; [done|]. intros H.
  pose proof (Index_None_HasPrefix _ _ H) as Hp.
  cbn [insert_before_each]. rewrite Hp. simpl.
  f_equal. apply IH. by eapply Index_None_cons.
Qed.

Lemma insert_before_first s j :
  (forall i, (i < j)%nat -> HasPrefix (drop i s) old = false) ->
  insert_before_each old ins s = take j s ++ insert_before_each old ins (drop j s).
Proof.
  revert s; induction j as [|j IH]; intros s H; [by rewrite drop_0|].
  destruct s as [|a s]; [done|].
  pose proof (H 0%nat ltac:(lia)) as H0. rewrite drop_0 in H0.
  cbn [insert_before_each]. rewrite H0. simpl. f_equal.
  apply IH. intros i Hi. apply (H (S i)). lia.
Qed.

Lemma Replace_loop_insert fuel s :
  (length s < fuel)%nat ->
  Replace_loop (Count_loop fuel s old 0) s old (ins ++ old)
  = insert_before_each old ins s.
Proof.
  revert s; induction fuel as [|fuel IH]; intros s Hf; [lia|].
  simpl. destruct (Index s old) as [j|] eqn:E.
  - rewrite Count_loop_acc. simpl. rewrite E.
    pose proof (Index_Some_le _ _ _ E) as Hle. simpl in Hle.
    destruct (Index_Some _ _ _ E) as (_ & Hp & Hlt).
    rewrite IH by (rewrite length_drop; simpl; lia).
    rewrite (insert_before_first s j Hlt). f_equal.
    rewrite (HasPrefix_drop _ _ Hp) at 1.
    rewrite insert_at_instance, drop_drop. by rewrite <- app_assoc.
  - simpl. symmetry. by apply insert_no_instance.
Qed.

Lemma Replace_all_insert s :
  ins <> [] ->
  Replace s old (ins ++ old) (-1) = insert_before_each old ins s.
Proof.
  intros Hins. unfold Replace.
  destruct (decide (old = ins ++ old)) as [Heq|_].
  { apply (f_equal length) in Heq. rewrite length_app in Heq.
    destruct ins; [done | simpl in Heq; lia]. }
  destruct (decide (-1 = 0)) as [|_]; [lia|].
  destruct (decide (Count s old = 0%nat)) as [H0|_].
  - symmetry. apply insert_no_instance.
    unfold Count in H0. simpl in H0.
    destruct (Index s old); [|done].
    rewrite Count_loop_acc in H0. lia.
  - destruct (decide (-1 < 0 \/ Z.of_nat (Count s old) < -1)) as [_|H]; [|lia].
    unfold Count. apply Replace_loop_insert. lia.
Qed.

End ReplaceEveryInstance.


(** ** The insertion performed by [insertScriptTagIntoBody] *)

Lemma insertScriptTagIntoBody_spec (body : list byte) :
  insertScriptTagIntoBody body = insert_before_each bodyClose scriptTag body.
Proof.
  unfold insertScriptTagIntoBody.
  change bodyClose with ("<"%byte :: bytes_of "/body>").
  apply Replace_all_insert; [|done].
  vm_compute. repeat constructor; discriminate.
Qed.

(** The result is longer than [s] by one copy of [ins] for every instance of
    [tag] in [s]. *)
Lemma insert_before_each_length (tag ins s : list byte) (k : nat) :
  length (insert_before_each tag ins s)
  = (length s + length ins * length (occurrences tag s k))%nat.
Proof.
  revert k; induction s as [|c s IH]; intros k; [simpl; lia|].
  cbn [insert_before_each occurrences].
  rewrite !length_app. cbn [length]. rewrite (IH (S k)).
  destruct (strings.HasPrefix (c :: s) tag); simpl; lia.
Qed.

(** ** Headers *)

(** The header names the proxy uses, in canonical form. *)
Example canonical_names :
  textproto.CanonicalMIMEHeaderKey <$>
    ["templ-skip-modify"; "Content-Type"; "Content-Encoding"; "Content-Length"; "HX-Request"]%string
  = ["Templ-Skip-Modify"; "Content-Type"; "Content-Encoding"; "Content-Length"; "Hx-Request"]%string.
Proof. reflexivity. Qed.

Example Itoa_examples :
  strconv.Itoa <$> [0; 7331; -15] = ["0"; "7331"; "-15"]%string.
Proof. reflexivity. Qed.

Lemma Header_Get_Set (h : Header) (k v : string) :
  Header_Get (Header_Set h k v) k = v.
Proof. unfold Header_Get, Header_Set. by rewrite lookup_insert_eq. Qed.

Lemma Header_Get_Set_other (h : Header) (k k' v : string) :
  textproto.CanonicalMIMEHeaderKey k <> textproto.CanonicalMIMEHeaderKey k' ->
  Header_Get (Header_Set h k v) k' = Header_Get h k'.
Proof. intros Hk. unfold Header_Get, Header_Set. by rewrite lookup_insert_ne. Qed.

Lemma set_body_Content_Encoding (r : Response) (h : handle) (n : nat) :
  Header_Get (RespHeader (set_body r h n)) "Content-Encoding"
  = Header_Get (RespHeader r) "Content-Encoding".
Proof. apply Header_Get_Set_other. by vm_compute. Qed.

Lemma set_body_gzip_encoded (r : Response) (h : handle) (n : nat) :
  gzip_encoded (set_body r h n) = gzip_encoded r.
Proof. unfold gzip_encoded. by rewrite set_body_Content_Encoding. Qed.

(** ** The rewriter, step by step *)

Section RewriterFacts.

Context `{Gzip}.

Lemma lookup_alloc (hp : list Reader) (rd : Reader) :
  (hp ++ [rd]) !! length hp = Some rd.
Proof. rewrite lookup_app_r by lia. by rewrite Nat.sub_diag. Qed.

(** The plain modifier: the stream is read to its end; if that fails the
    response is returned as it is, else it gets a new body. *)
Lemma updatePlainResponse_run (r : Response) (w : World) (rd : Reader) :
  heap w !! Body r = Some rd ->
  updatePlainResponse r w =
    let w1 := mkWorld (<[Body r := mkReader [] (failure rd)]> (heap w))
                      (trace w ++ [EvRead (Body r)]) in
    match failure rd with
    | Some e => ((r, Some e), w1)
    | None =>
        let updated := insertScriptTagIntoBody (unread rd) in
        ((set_body r (length (heap w)) (length updated), None),
         mkWorld (heap w1 ++ [mkReader updated None]) (trace w1))
    end.
Proof.
  intros Hrd. unfold updatePlainResponse, bind, io_ReadAll, on_stream, drain.
  rewrite Hrd. destruct (failure rd); [done|].
  unfold NewReader, ret. simpl. by rewrite length_insert.
Qed.

(** The gzip modifier, in the same way: the four places where it can fail,
    and the new body when it does not. *)
Lemma updateGzipResponse_run (r : Response) (w : World) (rd : Reader) :
  heap w !! Body r = Some rd ->
  updateGzipResponse r w =
    let tr1 := trace w ++ [EvRead (Body r)] in
    match gz_NewReader rd with
    | (rd1, inr e) => ((r, Some e), mkWorld (<[Body r := rd1]> (heap w)) tr1)
    | (rd1, inl g) =>
        let (rd2, res) := gz_ReadAll g rd1 in
        let w2 := mkWorld (<[Body r := rd2]> (heap w)) (tr1 ++ [EvRead (Body r)]) in
        match res with
        | (_, Some e) => ((r, Some e), w2)
        | (body, None) =>
            match gz_Write (insertScriptTagIntoBody body) with
            | (_, Some e) => ((r, Some e), w2)
            | (gw, None) =>
                match gz_Close gw with
                | (_, Some e) => ((r, Some e), w2)
                | (buf, None) =>
                    ((set_body r (length (heap w)) (length buf), None),
                     mkWorld (heap w2 ++ [mkReader buf None]) (trace w2))
                end
            end
        end
    end.
Proof.
  intros Hrd.
  unfold updateGzipResponse, bind, gzip_NewReader, gzip_ReadAll, on_stream.
  rewrite Hrd. destruct (gz_NewReader rd) as [rd1 [g|e]]; [|done].
  cbn [heap trace]. rewrite list_lookup_insert_eq by (by eapply lookup_lt_Some).
  destruct (gz_ReadAll g rd1) as [rd2 [body [e|]]]; [by rewrite list_insert_insert_eq|].
  rewrite list_insert_insert_eq.
  destruct (gz_Write _) as [gw [e|]]; [done|].
  destruct (gz_Close gw) as [buf [e|]]; [done|].
  unfold NewReader, ret. simpl. by rewrite length_insert.
Qed.

Lemma modifyResponse_plain (r : Response) (w : World) :
  rewritable r -> gzip_encoded r = false ->
  modifyResponse r w = updatePlainResponse r w.
Proof.
  intros [Hskip Hct] Hgz. unfold modifyResponse.
  destruct (decide _) as [|_]; [done|]. rewrite Hct. simpl.
  unfold gzip_encoded in Hgz. apply bool_decide_eq_false in Hgz.
  by destruct (decide _).
Qed.

Lemma modifyResponse_gzip (r : Response) (w : World) :
  rewritable r -> gzip_encoded r = true ->
  modifyResponse r w = updateGzipResponse r w.
Proof.
  intros [Hskip Hct] Hgz. unfold modifyResponse.
  destruct (decide _) as [|_]; [done|]. rewrite Hct. simpl.
  unfold gzip_encoded in Hgz. apply bool_decide_eq_true in Hgz.
  by destruct (decide _).
Qed.

(** A response that is rewritten without error: its new body carries the
    old text with the script tag inserted, in the encoding it had, and the
    two length fields give the size of the new body. *)
Lemma modifyResponse_rewrites (r : Response) (w : World) (rd : Reader) (html : list byte) :
  rewritable r ->
  heap w !! Body r = Some rd ->
  body_text r rd = Some html ->
  (gzip_encoded r = true ->
   gzip_round_trip /\ exists z, compresses (insertScriptTagIntoBody html) z) ->
  exists (w' : World) (new : list byte),
    modifyResponse r w = ((set_body r (length (heap w)) (length new), None), w') /\
    heap w' !! length (heap w) = Some (mkReader new None) /\
    body_text (set_body r (length (heap w)) (length new)) (mkReader new None)
    = Some (insert_before_each bodyClose scriptTag html).
Proof.
  intros Hr Hrd Htext Hgz. unfold body_text in Htext.
  destruct (gzip_encoded r) eqn:Egz.
  - destruct (Hgz eq_refl) as (Hrt & z & gw & Hw & Hc).
    rewrite modifyResponse_gzip, (updateGzipResponse_run _ _ _ Hrd) by done.
    unfold gunzip in Htext.
    destruct (gz_NewReader rd) as [rd1 [g|e]]; [|done].
    destruct (gz_ReadAll g rd1) as [rd2 [body [e|]]]; [done|].
    injection Htext as ->. rewrite Hw, Hc.
    eexists _, z. split; [done|]. cbn [heap].
    split; [by rewrite <- (length_insert (heap w) (Body r) rd2), lookup_alloc|].
    destruct (Hrt _ _ _ Hw Hc) as (rd1' & g' & rd2' & Hn & Ha).
    unfold body_text, gunzip. rewrite set_body_gzip_encoded, Egz, Hn, Ha.
    by rewrite insertScriptTagIntoBody_spec.
  - rewrite modifyResponse_plain, (updatePlainResponse_run _ _ _ Hrd) by done.
    destruct (failure rd); [done|]. injection Htext as <-.
    eexists _, _. split; [done|]. cbn [heap trace].
    split; [by rewrite <- (length_insert (heap w) (Body r) (mkReader [] None)), lookup_alloc|].
    unfold body_text. rewrite set_body_gzip_encoded, Egz. simpl.
    by rewrite insertScriptTagIntoBody_spec.
Qed.

End RewriterFacts.

(** ** The stored-block codec reads back what it writes *)

Module StoredGzipFacts.

Import StoredGzip.

Local Open Scope N_scope.

Lemma to_N_byte_of_N (n : N) : Byte.to_N (byte_of_N n) = n mod 256.
Proof.
  unfold byte_of_N. destruct (Byte.of_N (n mod 256)) as [b|] eqn:E.
  - simpl. by apply Byte.to_of_N.
  - apply Byte.of_N_None_iff in E.
    pose proof (N.mod_upper_bound n 256 ltac:(done)). lia.
Qed.

Lemma un16_le16 (n : N) :
  n < 65536 -> un16 (byte_of_N n) (byte_of_N (n / 256)) = n.
Proof.
  intros Hn. unfold un16. rewrite !to_N_byte_of_N.
  rewrite (N.mod_small (n / 256)) by (apply N.Div0.div_lt_upper_bound; lia).
  rewrite (N.div_mod n 256) at 3 by done. lia.
Qed.

Lemma un32_le32 (n : N) :
  n < 4294967296 ->
  un32 (byte_of_N n) (byte_of_N (n / 256)) (byte_of_N (n / 65536)) (byte_of_N (n / 16777216)) = n.
Proof.
  intros Hn. unfold un32. rewrite !to_N_byte_of_N.
  change 65536 with (256 * 256). change 16777216 with (256 * (256 * 256)).
  rewrite <- !N.Div0.div_div.
  rewrite (N.mod_small (n / 256 / 256 / 256)).
  2:{ repeat (apply N.Div0.div_lt_upper_bound). lia. }
  pose proof (N.div_mod n 256 ltac:(done)).
  pose proof (N.div_mod (n / 256) 256 ltac:(done)).
  pose proof (N.div_mod (n / 256 / 256) 256 ltac:(done)).
  lia.
Qed.

Lemma lxor_lt_pow2 (a b k : N) : a < 2 ^ k -> b < 2 ^ k -> N.lxor a b < 2 ^ k.
Proof.
  intros Ha Hb.
  destruct (N.eq_dec (N.lxor a b) 0) as [->|Hx]; [lia|].
  apply N.log2_lt_pow2; [lia|].
  eapply N.le_lt_trans; [apply N.log2_lxor|].
  destruct (N.eq_dec a 0) as [->|Ha0], (N.eq_dec b 0) as [->|Hb0].
  - by rewrite N.lxor_0_l in Hx.
  - rewrite N.max_r by (simpl; lia). apply N.log2_lt_pow2; lia.
  - rewrite N.max_l by (simpl; lia). apply N.log2_lt_pow2; lia.
  - apply N.max_lub_lt; apply N.log2_lt_pow2; lia.
Qed.

Lemma crc_step_bound (crc : N) : crc < 2 ^ 32 -> crc_step crc < 2 ^ 32.
Proof.
  intros Hc. unfold crc_step.
  assert (N.shiftr crc 1 < 2 ^ 32).
  { rewrite N.shiftr_div_pow2. apply N.Div0.div_lt_upper_bound. simpl in *. lia. }
  destruct (N.odd crc); [apply lxor_lt_pow2|]; done.
Qed.

Lemma crc_byte_bound (crc : N) (x : byte) : crc < 2 ^ 32 -> crc_byte crc x < 2 ^ 32.
Proof.
  intros Hc. unfold crc_byte.
  assert (Hx : N.lxor crc (Byte.to_N x) < 2 ^ 32).
  { apply lxor_lt_pow2; [done|]. pose proof (Byte.to_N_bounded x). simpl. lia. }
  revert Hx. generalize (N.lxor crc (Byte.to_N x)). intros c Hx.
  simpl. by do 8 apply crc_step_bound.
Qed.

Lemma crc32_bound (p : list byte) : crc32 p < 4294967296.
Proof.
  unfold crc32. change 4294967296 with (2 ^ 32). apply lxor_lt_pow2; [|done].
  assert (Hinit : 4294967295 < 2 ^ 32) by done.
  revert Hinit. generalize 4294967295. induction p as [|x p IH]; intros c Hc; [done|].
  simpl. apply IH. by apply crc_byte_bound.
Qed.

Lemma blockMax_N : N.of_nat blockMax = 65535.
Proof. unfold blockMax. by rewrite N2Nat.id. Qed.

Lemma blocks_length (fuel : nat) (p : list byte) :
  (length p < fuel)%nat -> (length p <= length (blocks fuel p))%nat.
Proof.
  revert p; induction fuel as [|fuel IH]; intros p Hf; [lia|].
  cbn [blocks]. destruct (N.leb_spec (N.of_nat (length p)) 65535) as [Hl|Hl].
  - rewrite !length_app. lia.
  - pose proof blockMax_N.
    assert (length (drop blockMax p) < fuel)%nat by (rewrite length_drop; lia).
    pose proof (IH _ H0) as IH'. rewrite length_drop in IH'.
    rewrite !length_app, length_take. lia.
Qed.

(** The stored blocks written for [p] are read back as [p], and what follows
    them is left. *)
Lemma inflate_blocks (fw : nat) :
  forall (p rest : list byte) (fr : nat),
    (length p < fw)%nat -> (fw <= fr)%nat ->
    inflate fr (blocks fw p ++ rest) = inl (p, rest).
Proof.
  induction fw as [|fw IH]; intros p rest fr Hp Hfr; [lia|].
  destruct fr as [|fr]; [lia|].
  pose proof blockMax_N as HM.
  cbn [blocks]. destruct (N.leb_spec (N.of_nat (length p)) 65535) as [Hl|Hl].
  - cbn [le16 app inflate].
    rewrite !un16_le16 by lia.
    change (Byte.to_N x01) with 1. change (1 / 2 mod 4 =? 0) with true.
    change (N.odd 1) with true. cbn [negb].
    replace (N.of_nat (length p) + (65535 - N.of_nat (length p)) =? 65535) with true
      by (symmetry; apply N.eqb_eq; lia).
    cbn [negb]. rewrite Nat2N.id.
    replace (length (p ++ rest) <? length p)%nat with false
      by (symmetry; apply Nat.ltb_ge; rewrite length_app; lia).
    by rewrite take_app_length, drop_app_length.
  - cbn [le16 app inflate].
    rewrite !un16_le16 by lia.
    change (Byte.to_N x00) with 0. change (0 / 2 mod 4 =? 0) with true.
    change (N.odd 0) with false. change (65535 + 0 =? 65535) with true. cbn [negb].
    fold blockMax.
    assert (Ht : length (take blockMax p) = blockMax) by (rewrite length_take; lia).
    rewrite <- app_assoc.
    replace (length (take blockMax p ++ blocks fw (drop blockMax p) ++ rest) <? blockMax)%nat
      with false by (symmetry; apply Nat.ltb_ge; rewrite length_app; lia).
    rewrite take_app_length', drop_app_length' by done.
    rewrite IH by (rewrite ?length_drop; lia).
    by rewrite take_drop.
Qed.

Lemma take_drop_header (x : list byte) :
  take bufSize (header ++ x) = header ++ take (bufSize - 10) x /\
  drop bufSize (header ++ x) = drop (bufSize - 10) x.
Proof.
  assert (length header <= bufSize)%nat by (vm_compute; lia).
  split; [by rewrite take_app_ge | by rewrite drop_app_ge].
Qed.

Theorem round_trip : @gzip_round_trip codec.
Proof.
  intros p z gw [= <-] [= <-].
  cbn [gz_NewReader gz_ReadAll codec]. unfold NewReader, ReadAll, compress.
  cbn [unread failure].
  destruct (take_drop_header (blocks (S (length p)) p ++ trailer p)) as [-> ->].
  eexists _, _, _. split; [reflexivity|].
  cbn [unread failure]. rewrite take_drop.
  unfold member_body.
  rewrite inflate_blocks.
  2: lia.
  2:{ pose proof (blocks_length (S (length p)) p ltac:(lia)).
      rewrite length_app. lia. }
  unfold trailer, le32. cbn [app].
  rewrite !un32_le32 by (apply crc32_bound || (apply N.mod_upper_bound; done)).
  rewrite !N.eqb_refl. cbn [andb length more_members].
  by rewrite app_nil_r.
Qed.

End StoredGzipFacts.

(** ** The rewriter: what the specification states *)

(** An error return of [modifyResponse] hands the response back as it was;
    no stream is created and none but the body of the response is touched. *)
Lemma modifyResponse_error `{Gzip} (r r' : Response) (w w' : World) (e : error) :
  modifyResponse r w = ((r', Some e), w') ->
  r' = r /\
  length (heap w') = length (heap w) /\
  (forall h, h <> Body r -> heap w' !! h = heap w !! h) /\
  exists evs, trace w' = trace w ++ evs /\ Forall (fun ev => ev = EvRead (Body r)) evs.
Proof.
  assert (Hsame : forall (x : Reader) (evs : list Event) (e2 : error),
             Forall (fun ev => ev = EvRead (Body r)) evs ->
             (r, Some e2, mkWorld (<[Body r := x]> (heap w)) (trace w ++ evs)) = (r', Some e, w') ->
             r' = r /\ length (heap w') = length (heap w) /\
             (forall h, h <> Body r -> heap w' !! h = heap w !! h) /\
             exists evs, trace w' = trace w ++ evs /\ Forall (fun ev => ev = EvRead (Body r)) evs).
  { intros x evs e2 Hevs [= <- _ <-]. cbn [heap trace].
    split; [done|]. split; [by rewrite length_insert|].
    split; [intros h Hh; by rewrite list_lookup_insert_ne | eauto]. }
  assert (Hnone : forall e2 : error, (r, Some e2, w) = (r', Some e, w') ->
             r' = r /\ length (heap w') = length (heap w) /\
             (forall h, h <> Body r -> heap w' !! h = heap w !! h) /\
             exists evs, trace w' = trace w ++ evs /\ Forall (fun ev => ev = EvRead (Body r)) evs).
  { intros e2 [= <- _ <-]. repeat split; try done. exists []. by rewrite app_nil_r. }
  assert (H1 : Forall (fun ev => ev = EvRead (Body r)) [EvRead (Body r)])
    by (by constructor).
  assert (H2 : Forall (fun ev => ev = EvRead (Body r)) [EvRead (Body r); EvRead (Body r)])
    by (by repeat constructor).
  unfold modifyResponse.
  destruct (decide _) as [|_]; [discriminate|].
  destruct (negb _); [discriminate|].
  destruct (decide _) as [_|_].
  - destruct (heap w !! Body r) as [rd|] eqn:Hrd.
    + rewrite (updateGzipResponse_run _ _ _ Hrd). cbn zeta.
      destruct (gz_NewReader rd) as [rd1 [g|e1]]; [|by apply Hsame].
      destruct (gz_ReadAll g rd1) as [rd2 [body [e2|]]].
      { rewrite <- app_assoc. by apply Hsame. }
      destruct (gz_Write _) as [gw [e3|]].
      { rewrite <- app_assoc. by apply Hsame. }
      destruct (gz_Close gw) as [buf [e4|]]; [|discriminate].
      rewrite <- app_assoc. by apply Hsame.
    + unfold updateGzipResponse, bind, gzip_NewReader, on_stream. rewrite Hrd.
      apply Hnone.
  - destruct (heap w !! Body r) as [rd|] eqn:Hrd.
    + rewrite (updatePlainResponse_run _ _ _ Hrd). cbn zeta.
      destruct (failure rd); [|discriminate]. by apply Hsame.
    + unfold updatePlainResponse, bind, io_ReadAll, on_stream. rewrite Hrd.
      apply Hnone.
Qed.

(** C1. For an HTML response that is not tagged to skip, the rewrite puts the
    script tag once in front of every "</body>" of the text the body carries
    and copies every other byte; the Content-Length header and the
    ContentLength field are set to the number of bytes of the new body, and
    nothing else of the response changes.  (For a gzip-encoded response the
    text is the decompressed body; the codec is then assumed to read back
    what it writes and to accept the new text.) *)
Theorem C1_script_tag_before_each_body_close `{Gzip}
    (r : Response) (w : World) (rd : Reader) (html : list byte) :
  rewritable r ->
  heap w !! Body r = Some rd ->
  body_text r rd = Some html ->
  (gzip_encoded r = true ->
   gzip_round_trip /\ exists z, compresses (insertScriptTagIntoBody html) z) ->
  exists (r' : Response) (w' : World) (new : list byte),
    modifyResponse r w = ((r', None), w') /\
    heap w' !! Body r' = Some (mkReader new None) /\
    body_text r' (mkReader new None) = Some (insert_before_each bodyClose scriptTag html) /\
    RespHeader r' = <["Content-Length" := [strconv.Itoa (Z.of_nat (length new))]]> (RespHeader r) /\
    ContentLength r' = Z.of_nat (length new) /\
    StatusCode r' = StatusCode r.
Proof.
  intros Hr Hrd Htext Hgz.
  destruct (modifyResponse_rewrites r w rd html Hr Hrd Htext Hgz) as (w' & new & Hrun & Hnew & Ht).
  exists (set_body r (length (heap w)) (length new)), w', new.
  by repeat split.
Qed.

Lemma C1_witness :
  exists (r' : Response) (w' : World) (new : list byte),
    @modifyResponse StoredGzip.codec (Sample.response Sample.html_header) (Sample.world Sample.page)
    = ((r', None), w') /\
    heap w' !! Body r' = Some (mkReader new None) /\
    @body_text StoredGzip.codec r' (mkReader new None)
    = Some (insert_before_each bodyClose scriptTag Sample.page) /\
    RespHeader r' = <["Content-Length" := [strconv.Itoa (Z.of_nat (length new))]]> Sample.html_header /\
    ContentLength r' = Z.of_nat (length new) /\
    StatusCode r' = 200.
Proof.
  apply (@C1_script_tag_before_each_body_close StoredGzip.codec
           (Sample.response Sample.html_header) (Sample.world Sample.page)
           (mkReader Sample.page None) Sample.page).
  - split; [vm_compute; discriminate | vm_compute; reflexivity].
  - reflexivity.
  - reflexivity.
  - intros Hgz. vm_compute in Hgz. discriminate.
Defined.

(** C4. Rewriting a gzip-encoded HTML response and decompressing its new
    body gives the bytes that the plain-text rewrite gives on the
    decompressed original body, for a codec that reads back what it writes. *)
Theorem C4_gzip_rewrite_commutes_with_decompression `{Gzip}
    (r : Response) (w : World) (rd : Reader) (html z : list byte) :
  gzip_round_trip ->
  rewritable r ->
  gzip_encoded r = true ->
  heap w !! Body r = Some rd ->
  gunzip rd = inl html ->
  compresses (insertScriptTagIntoBody html) z ->
  exists (r' : Response) (w' : World),
    modifyResponse r w = ((r', None), w') /\
    heap w' !! Body r' = Some (mkReader z None) /\
    gunzip (mkReader z None) = inl (insertScriptTagIntoBody html) /\
    forall (rp : Response) (wp : World),
      heap wp !! Body rp = Some (mkReader html None) ->
      exists (rp' : Response) (wp' : World),
        updatePlainResponse rp wp = ((rp', None), wp') /\
        heap wp' !! Body rp' = Some (mkReader (insertScriptTagIntoBody html) None).
Proof.
  intros Hrt Hr Hgz Hrd Hhtml (gw & Hw & Hc).
  rewrite modifyResponse_gzip, (updateGzipResponse_run _ _ _ Hrd) by done.
  unfold gunzip in Hhtml.
  destruct (gz_NewReader rd) as [rd1 [g|e]]; [|done].
  destruct (gz_ReadAll g rd1) as [rd2 [body [e|]]]; [done|].
  injection Hhtml as ->. rewrite Hw, Hc.
  eexists _, _. split; [done|]. cbn [heap Body set_body].
  split; [by rewrite <- (length_insert (heap w) (Body r) rd2), lookup_alloc|].
  split.
  - destruct (Hrt _ _ _ Hw Hc) as (rd1' & g' & rd2' & Hn & Ha).
    unfold gunzip. by rewrite Hn, Ha.
  - intros rp wp Hp. rewrite (updatePlainResponse_run _ _ _ Hp).
    eexists _, _. split; [done|]. cbn [heap Body set_body failure unread].
    by rewrite <- (length_insert (heap wp) (Body rp) (mkReader [] None)), lookup_alloc.
Qed.

Lemma C4_witness :
  let z := StoredGzip.compress (insertScriptTagIntoBody Sample.page) in
  exists (r' : Response) (w' : World),
    @modifyResponse StoredGzip.codec (Sample.response Sample.gzip_header)
      (Sample.world (StoredGzip.compress Sample.page)) = ((r', None), w') /\
    heap w' !! Body r' = Some (mkReader z None) /\
    @gunzip StoredGzip.codec (mkReader z None) = inl (insertScriptTagIntoBody Sample.page) /\
    forall (rp : Response) (wp : World),
      heap wp !! Body rp = Some (mkReader Sample.page None) ->
      exists (rp' : Response) (wp' : World),
        @updatePlainResponse rp wp = ((rp', None), wp') /\
        heap wp' !! Body rp' = Some (mkReader (insertScriptTagIntoBody Sample.page) None).
Proof.
  intros z.
  apply (@C4_gzip_rewrite_commutes_with_decompression StoredGzip.codec
           (Sample.response Sample.gzip_header)
           (Sample.world (StoredGzip.compress Sample.page))
           (mkReader (StoredGzip.compress Sample.page) None) Sample.page z).
  - apply StoredGzipFacts.round_trip.
  - split; [vm_compute; discriminate | vm_compute; reflexivity].
  - vm_compute; reflexivity.
  - reflexivity.
  - vm_compute; reflexivity.
  - exists (insertScriptTagIntoBody Sample.page). split; reflexivity.
Defined.

(** C5. A response whose Content-Type does not begin with "text/html" is
    passed through: the response, every stream and the trace are as before,
    and no error is returned. *)
Theorem C5_non_html_is_passed_through `{Gzip} (r : Response) (w : World) :
  strings.HasPrefix (bytes_of (Header_Get (RespHeader r) "Content-Type")) (bytes_of "text/html")
  = false ->
  modifyResponse r w = ((r, None), w).
Proof.
  intros Hct. unfold modifyResponse.
  destruct (decide _); [done|]. by rewrite Hct.
Qed.

Lemma C5_witness :
  @modifyResponse StoredGzip.codec (Sample.response Sample.json_header) (Sample.world Sample.page)
  = ((Sample.response Sample.json_header, None), Sample.world Sample.page).
Proof.
  apply (@C5_non_html_is_passed_through StoredGzip.codec).
  vm_compute; reflexivity.
Defined.

(** C9. An HTML response whose Content-Encoding is anything but exactly
    "gzip" ("br", "deflate", "Gzip", ...) is rewritten as plain text: the
    replacement is made in the raw bytes of the body, whatever the gzip
    package would do with them, and the two length fields are overwritten
    with the new size. *)
Theorem C9_other_encodings_are_rewritten_raw `{Gzip}
    (r : Response) (w : World) (raw : list byte) :
  rewritable r ->
  Header_Get (RespHeader r) "Content-Encoding" <> "gzip"%string ->
  heap w !! Body r = Some (mkReader raw None) ->
  let new := insert_before_each bodyClose scriptTag raw in
  exists (r' : Response) (w' : World),
    modifyResponse r w = ((r', None), w') /\
    heap w' !! Body r' = Some (mkReader new None) /\
    RespHeader r' = <["Content-Length" := [strconv.Itoa (Z.of_nat (length new))]]> (RespHeader r) /\
    ContentLength r' = Z.of_nat (length new) /\
    forall G : Gzip, @modifyResponse G r w = ((r', None), w').
Proof.
  intros Hr Henc Hrd new.
  assert (Hgz : gzip_encoded r = false) by (by apply bool_decide_eq_false).
  assert (Hrun : forall G : Gzip,
             @modifyResponse G r w =
             ((set_body r (length (heap w)) (length new), None),
              mkWorld (<[Body r := mkReader [] None]> (heap w) ++ [mkReader new None])
                      (trace w ++ [EvRead (Body r)]))).
  { intros G. rewrite modifyResponse_plain, (updatePlainResponse_run _ _ _ Hrd) by done.
    cbn [failure unread heap trace]. by rewrite insertScriptTagIntoBody_spec. }
  eexists _, _. split; [apply Hrun|]. cbn [heap Body set_body].
  split; [by rewrite <- (length_insert (heap w) (Body r) (mkReader [] None)), lookup_alloc|].
  done.
Qed.

Lemma C9_witness :
  let new := insert_before_each bodyClose scriptTag Sample.page in
  exists (r' : Response) (w' : World),
    @modifyResponse StoredGzip.codec (Sample.response Sample.br_header) (Sample.world Sample.page)
    = ((r', None), w') /\
    heap w' !! Body r' = Some (mkReader new None) /\
    RespHeader r' = <["Content-Length" := [strconv.Itoa (Z.of_nat (length new))]]> Sample.br_header /\
    ContentLength r' = Z.of_nat (length new) /\
    forall G : Gzip,
      @modifyResponse G (Sample.response Sample.br_header) (Sample.world Sample.page)
      = ((r', None), w').
Proof.
  apply (@C9_other_encodings_are_rewritten_raw StoredGzip.codec
           (Sample.response Sample.br_header) (Sample.world Sample.page) Sample.page).
  - split; [vm_compute; discriminate | vm_compute; reflexivity].
  - vm_compute; discriminate.
  - reflexivity.
Defined.

(** C7, as the code has it.  When decompression or recompression fails for
    a gzip-encoded HTML response, the rewrite returns that error and assigns
    nothing: the response comes back with its headers, its ContentLength and
    its Body reference as they were, no new body is created, and no other
    stream is touched.  The one effect is on the original body stream, which
    has been read from; what the decompressor took from it is gone.  The
    same holds for every error return of [modifyResponse]. *)
Theorem C7_failed_rewrite_assigns_nothing `{Gzip}
    (r : Response) (w : World) (rd : Reader) (e : error) :
  rewritable r ->
  gzip_encoded r = true ->
  heap w !! Body r = Some rd ->
  gzip_fails rd e ->
  (exists w' : World, modifyResponse r w = ((r, Some e), w')) /\
  (forall (r' : Response) (e' : error) (w' : World),
     modifyResponse r w = ((r', Some e'), w') ->
     r' = r /\
     length (heap w') = length (heap w) /\
     (forall h, h <> Body r -> heap w' !! h = heap w !! h) /\
     exists evs, trace w' = trace w ++ evs /\ Forall (fun ev => ev = EvRead (Body r)) evs).
Proof.
  intros Hr Hgz Hrd Hfail. split; [|intros r' e' w'; apply modifyResponse_error].
  rewrite modifyResponse_gzip, (updateGzipResponse_run _ _ _ Hrd) by done.
  unfold gzip_fails, gunzip in Hfail.
  destruct (gz_NewReader rd) as [rd1 [g|e1]].
  - destruct (gz_ReadAll g rd1) as [rd2 [body [e2|]]].
    + destruct Hfail as [[= ->]|(p & Hp & _)]; [eauto | done].
    + destruct Hfail as [|(p & [= <-] & [(gw & Hw)|(gw & z & Hw & Hc)])]; [done| |].
      * rewrite Hw. eauto.
      * rewrite Hw, Hc. eauto.
  - destruct Hfail as [[= ->]|(p & Hp & _)]; [eauto | done].
Qed.

Lemma C7_witness :
  let r := Sample.response Sample.gzip_header in
  let w := Sample.world (bytes_of "<html></body>") in
  (exists w' : World,
     @modifyResponse StoredGzip.codec r w = ((r, Some StoredGzip.errHeader), w')) /\
  (forall (r' : Response) (e' : error) (w' : World),
     @modifyResponse StoredGzip.codec r w = ((r', Some e'), w') ->
     r' = r /\
     length (heap w') = length (heap w) /\
     (forall h, h <> Body r -> heap w' !! h = heap w !! h) /\
     exists evs, trace w' = trace w ++ evs /\ Forall (fun ev => ev = EvRead (Body r)) evs).
Proof.
  apply (@C7_failed_rewrite_assigns_nothing StoredGzip.codec
           (Sample.response Sample.gzip_header)
           (Sample.world (bytes_of "<html></body>"))
           (mkReader (bytes_of "<html></body>") None) StoredGzip.errHeader).
  - split; [vm_compute; discriminate | vm_compute; reflexivity].
  - vm_compute; reflexivity.
  - reflexivity.
  - left. vm_compute; reflexivity.
Defined.

(** C7, as stated, fails: "its body is left as it was".  A response
    announced as gzip whose thirteen body bytes are no gzip member makes
    [gzip.NewReader] fail on the header; the rewrite returns that error and
    the unchanged response, but the body stream has been read and is now
    empty. *)
Lemma C7_body_stream_is_consumed :
  let r := Sample.response Sample.gzip_header in
  let w := Sample.world (bytes_of "<html></body>") in
  rewritable r /\ gzip_encoded r = true /\
  heap w !! Body r = Some (mkReader (bytes_of "<html></body>") None) /\
  exists w' : World,
    @modifyResponse StoredGzip.codec r w = ((r, Some StoredGzip.errHeader), w') /\
    heap w' !! Body r = Some (mkReader [] None) /\
    heap w' !! Body r <> heap w !! Body r.
Proof.
  split; [split; [vm_compute; discriminate | vm_compute; reflexivity]|].
  split; [vm_compute; reflexivity|]. split; [reflexivity|].
  eexists. split; [vm_compute; reflexivity|].
  split; [reflexivity | vm_compute; discriminate].
Qed.

(** ** The transport, round by round *)

Section TransportFacts.

Variable network : nat -> Outcome.
Variable rt : roundTripper.
Variable r : Request.

Lemma calls_app (tr1 tr2 : list Event) : calls (tr1 ++ tr2) = (calls tr1 + calls tr2)%nat.
Proof. unfold calls. by rewrite filter_app, length_app. Qed.

Lemma sleeps_app (tr1 tr2 : list Event) : sleeps (tr1 ++ tr2) = sleeps tr1 ++ sleeps tr2.
Proof. unfold sleeps. by rewrite omap_app. Qed.

Lemma sent_app (tr1 tr2 : list Event) : sent (tr1 ++ tr2) = sent tr1 ++ sent tr2.
Proof. unfold sent. by rewrite omap_app. Qed.

Lemma attempt_payload_alloc (hp : list Reader) (bb : option (list byte)) :
  payload (mkWorld (hp ++ attempt_heap bb) []) (ReqBody (attempt_request r bb (length hp)))
  = attempt_payload hp r bb.
Proof.
  destruct bb as [b|]; simpl; [by rewrite lookup_alloc | by rewrite app_nil_r].
Qed.

Lemma payload_heap (w : World) (b : BodyRef) : payload w b = payload (mkWorld (heap w) []) b.
Proof. done. Qed.

(** A round that the network fails: sleep, and go on with the next. *)
Lemma retry_failure (bb : option (list byte)) (todo : nat) (retries : Z) (w : World) (msg : string) :
  network (calls (trace w)) = inl msg ->
  retry network rt r bb (S todo) retries w
  = retry network rt r bb todo (retries + 1) (after_failure rt r bb retries w).
Proof.
  intros Hnet. cbn [retry]. unfold bind at 1.
  assert (Hreq : (match bb with
                  | Some b => let* h := NewReader b in ret (with_body (Clone r) h)
                  | None => ret (Clone r)
                  end) w
                 = (attempt_request r bb (length (heap w)),
                    mkWorld (heap w ++ attempt_heap bb) (trace w))).
  { destruct bb; simpl; [done|]. unfold ret. rewrite app_nil_r. by destruct w. }
  rewrite Hreq. unfold bind at 1.
  unfold DefaultTransport_RoundTrip. cbn [heap trace]. rewrite Hnet.
  rewrite payload_heap. cbn [heap]. rewrite attempt_payload_alloc.
  unfold bind, time_Sleep, emit. cbn [heap trace]. unfold after_failure, attempt_call.
  by rewrite <- app_assoc.
Qed.

(** A round that the network answers: tag the response and return it. *)
Lemma retry_success (bb : option (list byte)) (todo : nat) (retries : Z) (w : World) (a : Reply) :
  network (calls (trace w)) = inr a ->
  retry network rt r bb (S todo) retries w
  = ((Some (setShouldSkipResponseModificationHeader r
              (response_of a (length (heap w ++ attempt_heap bb)))), None),
     after_success r bb a w).
Proof.
  intros Hnet. cbn [retry]. unfold bind at 1.
  assert (Hreq : (match bb with
                  | Some b => let* h := NewReader b in ret (with_body (Clone r) h)
                  | None => ret (Clone r)
                  end) w
                 = (attempt_request r bb (length (heap w)),
                    mkWorld (heap w ++ attempt_heap bb) (trace w))).
  { destruct bb; simpl; [done|]. unfold ret. rewrite app_nil_r. by destruct w. }
  rewrite Hreq. unfold bind at 1.
  unfold DefaultTransport_RoundTrip. cbn [heap trace]. rewrite Hnet.
  rewrite payload_heap. cbn [heap]. rewrite attempt_payload_alloc.
  unfold ret, after_success, attempt_call, response_of. by rewrite <- app_assoc.
Qed.

Lemma calls_after_failure (bb : option (list byte)) (retries : Z) (w : World) :
  calls (trace (after_failure rt r bb retries w)) = S (calls (trace w)).
Proof. unfold after_failure. cbn [trace]. rewrite calls_app. unfold calls at 2. simpl. lia. Qed.

Lemma calls_after_failures (bb : option (list byte)) (k : nat) :
  forall (retries : Z) (w : World),
    calls (trace (after_failures rt r bb k retries w)) = (calls (trace w) + k)%nat.
Proof.
  induction k as [|k IH]; intros retries w; simpl; [lia|].
  rewrite IH, calls_after_failure. lia.
Qed.

(** [k] failed rounds in a row. *)
Lemma retry_failures (bb : option (list byte)) (k : nat) :
  forall (todo : nat) (retries : Z) (w : World),
    fails_from network (calls (trace w)) k ->
    retry network rt r bb (k + todo) retries w
    = retry network rt r bb todo (retries + Z.of_nat k) (after_failures rt r bb k retries w).
Proof.
  induction k as [|k IH]; intros todo retries w Hfail.
  - simpl. by rewrite Z.add_0_r.
  - destruct (Hfail 0%nat ltac:(lia)) as [msg Hmsg]. rewrite Nat.add_0_r in Hmsg.
    cbn [Nat.add after_failures]. rewrite (retry_failure _ _ _ _ _ Hmsg).
    rewrite IH.
    + f_equal. lia.
    + intros i Hi. rewrite calls_after_failure.
      destruct (Hfail (S i) ltac:(lia)) as [m Hm]. exists m. rewrite <- Hm. f_equal. lia.
Qed.

(** Buffering the body, then the loop. *)
Lemma RoundTrip_buffers (bb : option (list byte)) (w : World) :
  buffers w r bb ->
  RoundTrip network rt r w
  = retry network rt r bb (Z.to_nat (maxRetries rt)) 0 (buffered w r).
Proof.
  unfold buffers, buffered, RoundTrip. destruct (ReqBody r) as [| |h].
  - by intros ->.
  - by intros ->.
  - intros (b & Hb & ->).
    unfold bind, io_ReadAll, on_stream, drain. rewrite Hb. cbn [failure unread].
    unfold Close, emit, ret. cbn [heap trace]. by rewrite <- app_assoc.
Qed.

Lemma calls_buffered (w : World) : calls (trace (buffered w r)) = calls (trace w).
Proof.
  unfold buffered. destruct (ReqBody r); [done..|].
  cbn [trace]. rewrite calls_app. unfold calls at 2. simpl. lia.
Qed.


Lemma sleeps_after_failures (bb : option (list byte)) (k : nat) :
  forall (retries : Z) (w : World),
    sleeps (trace (after_failures rt r bb k retries w))
    = sleeps (trace w) ++ ((fun i => backoff rt (retries + Z.of_nat i)) <$> seq 0 k).
Proof.
  induction k as [|k IH]; intros retries w; simpl; [by rewrite app_nil_r|].
  rewrite IH. unfold after_failure. cbn [trace]. rewrite sleeps_app. simpl.
  rewrite <- app_assoc, Z.add_0_r. simpl. do 2 f_equal.
  rewrite <- fmap_S_seq, <- list_fmap_compose. apply list_fmap_ext.
  intros _ i _. simpl. f_equal. lia.
Qed.

(** Every attempt fails: the loop ends after [maxRetries] rounds. *)
Lemma RoundTrip_exhausted (bb : option (list byte)) (w : World) :
  buffers w r bb ->
  fails_from network (calls (trace w)) (Z.to_nat (maxRetries rt)) ->
  RoundTrip network rt r w
  = ((None, Some (errorString "max retries reached")),
     after_failures rt r bb (Z.to_nat (maxRetries rt)) 0 (buffered w r)).
Proof.
  intros Hb Hfail. rewrite (RoundTrip_buffers _ _ Hb).
  rewrite <- (Nat.add_0_r (Z.to_nat (maxRetries rt))) at 1.
  rewrite retry_failures by (by rewrite calls_buffered). done.
Qed.

(** [k] attempts fail and the next is answered: the answer is returned at
    once. *)
Lemma RoundTrip_answered (bb : option (list byte)) (w : World) (k : nat) (a : Reply) :
  buffers w r bb ->
  (k < Z.to_nat (maxRetries rt))%nat ->
  fails_from network (calls (trace w)) k ->
  network (calls (trace w) + k)%nat = inr a ->
  let wk := after_failures rt r bb k 0 (buffered w r) in
  RoundTrip network rt r w
  = ((Some (setShouldSkipResponseModificationHeader r
              (response_of a (length (heap wk ++ attempt_heap bb)))), None),
     after_success r bb a wk).
Proof.
  intros Hb Hk Hfail Ha wk. rewrite (RoundTrip_buffers _ _ Hb).
  replace (Z.to_nat (maxRetries rt)) with (k + S (Z.to_nat (maxRetries rt) - S k))%nat by lia.
  rewrite retry_failures by (by rewrite calls_buffered).
  apply retry_success. fold wk. subst wk. by rewrite calls_after_failures, calls_buffered.
Qed.

Lemma attempt_event_weaken (bb : option (list byte)) (hp0 : list Reader) (e : Event) :
  attempt_event r bb (hp0 ++ attempt_heap bb) e -> attempt_event r bb hp0 e.
Proof.
  destruct e as [| | |q pl]; try done. intros [-> (hp & Hhp & ->)]. split.
  - destruct bb; simpl; [done | by rewrite app_nil_r].
  - exists hp. split; [|done]. rewrite length_app in Hhp. lia.
Qed.

(** Whatever the network does, the loop only calls it and sleeps, and each
    call carries the buffered body in a stream of its own. *)
Lemma retry_shape (bb : option (list byte)) (todo : nat) :
  forall (retries : Z) (w : World) res (w' : World),
    retry network rt r bb todo retries w = (res, w') ->
    exists (evs : list Event) (hs : list Reader),
      trace w' = trace w ++ evs /\ heap w' = heap w ++ hs /\
      Forall (attempt_event r bb (heap w)) evs.
Proof.
  induction todo as [|todo IH]; intros retries w res w' Hrun.
  - injection Hrun as _ <-. exists [], []. by rewrite !app_nil_r.
  - assert (Hcall : attempt_event r bb (heap w) (attempt_call w r bb)).
    { split; [done|]. by exists (length (heap w)). }
    destruct (network (calls (trace w))) as [msg|a] eqn:Hnet.
    + rewrite (retry_failure _ _ _ _ _ Hnet) in Hrun.
      destruct (IH _ _ _ _ Hrun) as (evs & hs & Ht & Hh & Hevs).
      cbn [after_failure heap trace] in Ht, Hh, Hevs.
      eexists (_ :: _ :: evs), (attempt_heap bb ++ hs).
      rewrite Ht, Hh, <- !app_assoc. split; [done|]. split; [done|].
      apply Forall_cons; split; [done|]. apply Forall_cons; split; [done|].
      eapply Forall_impl; [apply Hevs|]. apply attempt_event_weaken.
    + rewrite (retry_success _ _ _ _ _ Hnet) in Hrun.
      injection Hrun as _ <-. eexists [_], _. cbn [after_success heap trace].
      split; [done|]. split; [done|]. by constructor.
Qed.

(** A response that [retry] returns is an answer of the network, tagged. *)
Lemma retry_response (bb : option (list byte)) (todo : nat) :
  forall (retries : Z) (w : World) (resp : Response) (w' : World),
    retry network rt r bb todo retries w = ((Some resp, None), w') ->
    exists (a : Reply) (i : nat) (hp : handle),
      network i = inr a /\
      resp = setShouldSkipResponseModificationHeader r (response_of a hp) /\
      heap w' !! hp = Some (replyBody a).
Proof.
  induction todo as [|todo IH]; intros retries w resp w' Hrun; [done|].
  destruct (network (calls (trace w))) as [msg|a] eqn:Hnet.
  - rewrite (retry_failure _ _ _ _ _ Hnet) in Hrun. by eapply IH.
  - rewrite (retry_success _ _ _ _ _ Hnet) in Hrun.
    injection Hrun as <- <-. eexists a, _, _. split; [done|]. split; [done|].
    cbn [after_success heap]. rewrite app_assoc. apply lookup_alloc.
Qed.

Lemma RoundTrip_response (w : World) (resp : Response) (w' : World) :
  RoundTrip network rt r w = ((Some resp, None), w') ->
  exists (a : Reply) (i : nat) (hp : handle),
    network i = inr a /\
    resp = setShouldSkipResponseModificationHeader r (response_of a hp) /\
    heap w' !! hp = Some (replyBody a).
Proof.
  unfold RoundTrip. destruct (ReqBody r) as [| |h].
  - apply retry_response.
  - apply retry_response.
  - unfold bind at 1 2. unfold io_ReadAll, on_stream, drain.
    destruct (heap w !! h) as [rd|]; [|done].
    destruct (failure rd); [done|]. unfold bind, Close, emit, ret.
    apply retry_response.
Qed.

End TransportFacts.

(** ** The transport: what the specification states *)

Lemma RoundTrip_answered_trace (network : nat -> Outcome) (rt : roundTripper) (r : Request)
    (bb : option (list byte)) (w : World) (k : nat) (a : Reply) :
  buffers w r bb ->
  (k < Z.to_nat (maxRetries rt))%nat ->
  fails_from network (calls (trace w)) k ->
  network (calls (trace w) + k)%nat = inr a ->
  exists (hp : handle) (w' : World),
    RoundTrip network rt r w
    = ((Some (setShouldSkipResponseModificationHeader r (response_of a hp)), None), w') /\
    heap w' !! hp = Some (replyBody a) /\
    calls (trace w') = (calls (trace w) + S k)%nat /\
    sleeps (trace w') = sleeps (trace w) ++ backoffs rt k.
Proof.
  intros Hb Hk Hfail Ha.
  rewrite (RoundTrip_answered network rt r bb w k a Hb Hk Hfail Ha).
  eexists _, _. split; [done|]. cbn [after_success heap trace].
  split; [rewrite app_assoc; apply lookup_alloc|].
  rewrite calls_app, sleeps_app, calls_after_failures, sleeps_after_failures, calls_buffered.
  split; [unfold calls at 2; simpl; lia|].
  rewrite app_nil_r. f_equal.
  unfold buffered. destruct (ReqBody r); [done..|].
  cbn [trace]. by rewrite sleeps_app, app_nil_r.
Qed.

(** C2, where the code departs from it.  With the policy that [New]
    installs, two refused connections and then an answer (of status 500,
    which is returned, not retried): three calls are made, and the two waits
    are 100ms each, 200ms in all, less than the 100ms + 150ms of the
    specification.  [time.Duration(math.Pow(1.5, 1))] is 1: the factor loses
    its fraction before it is multiplied with the initial delay. *)
Theorem C2_backoff_factor_is_truncated :
  let network := Sample.refused_then 2 (Sample.reply 500 Sample.html_header Sample.page) in
  exists (resp : Response) (w' : World),
    RoundTrip network New_Transport Sample.get (mkWorld [] []) = ((Some resp, None), w') /\
    StatusCode resp = 500 /\
    calls (trace w') = 3%nat /\
    sleeps (trace w') = [100 * time.Millisecond; 100 * time.Millisecond] /\
    (specified_wait New_Transport 2 == inject_Z (250 * time.Millisecond))%Q /\
    (inject_Z (slept (trace w')) < specified_wait New_Transport 2)%Q.
Proof.
  intros network. eexists _, _.
  split; [vm_compute; reflexivity|].
  split; [reflexivity|]. split; [reflexivity|]. split; [reflexivity|].
  split; vm_compute; reflexivity.
Qed.

(** The waits of nine failed attempts under that policy, in milliseconds. *)
Example backoffs_New_Transport :
  backoffs New_Transport 9
  = (fun ms => ms * time.Millisecond) <$> [100; 100; 200; 300; 500; 700; 1100; 1700; 2500].
Proof. vm_compute; reflexivity. Qed.

(** C3. When the network fails every one of the [maxRetries] attempts,
    [RoundTrip] returns no response and the error "max retries reached",
    which is none of the errors of the network; it has made exactly
    [maxRetries] calls. *)
Theorem C3_exhaustion_returns_max_retries_error
    (network : nat -> Outcome) (rt : roundTripper) (r : Request)
    (bodyBytes : option (list byte)) (w : World) :
  buffers w r bodyBytes ->
  fails_from network (calls (trace w)) (Z.to_nat (maxRetries rt)) ->
  exists w' : World,
    RoundTrip network rt r w = ((None, Some (errorString "max retries reached")), w') /\
    calls (trace w') = (calls (trace w) + Z.to_nat (maxRetries rt))%nat /\
    forall msg : string, netError msg <> errorString "max retries reached".
Proof.
  intros Hb Hfail. rewrite (RoundTrip_exhausted network rt r bodyBytes w Hb Hfail).
  eexists. split; [done|]. split; [|done].
  by rewrite calls_after_failures, calls_buffered.
Qed.

Lemma C3_witness :
  exists w' : World,
    RoundTrip Sample.always_refused New_Transport Sample.post (Sample.world (bytes_of "a=1"))
    = ((None, Some (errorString "max retries reached")), w') /\
    calls (trace w') = (0 + 10)%nat /\
    forall msg : string, netError msg <> errorString "max retries reached".
Proof.
  apply (C3_exhaustion_returns_max_retries_error Sample.always_refused New_Transport
           Sample.post (Some (bytes_of "a=1")) (Sample.world (bytes_of "a=1"))).
  - exists (bytes_of "a=1"). split; reflexivity.
  - intros i _. by exists "dial tcp: connection refused"%string.
Defined.

(** C10. [NotifyProxy] returns [nil] whenever the exchange completes,
    whatever the status of the response; an error it returns is the error of
    building the request or the error of the exchange. *)
Theorem C10_NotifyProxy_ignores_status
    (http_NewRequest : string -> string -> Request + error)
    (DefaultClient_Do : Request -> option Response * option error)
    (host : string) (port : Z) :
  let urlStr := ("http://" ++ host ++ ":" ++ strconv.Itoa port ++ "/_templ/reload/events")%string in
  (forall (req : Request) (resp : option Response),
     http_NewRequest "POST"%string urlStr = inl req ->
     DefaultClient_Do req = (resp, None) ->
     NotifyProxy http_NewRequest DefaultClient_Do host port = None) /\
  (forall e : error,
     NotifyProxy http_NewRequest DefaultClient_Do host port = Some e ->
     http_NewRequest "POST"%string urlStr = inr e \/
     exists (req : Request) (resp : option Response),
       http_NewRequest "POST"%string urlStr = inl req /\ DefaultClient_Do req = (resp, Some e)).
Proof.
  intros urlStr. unfold NotifyProxy. fold urlStr.
  destruct (http_NewRequest "POST"%string urlStr) as [req|e0].
  - split.
    + intros req' resp [= <-] Hdo. by rewrite Hdo.
    + intros e He. right. exists req. destruct (DefaultClient_Do req) as [resp err].
      simpl in He. subst err. eauto.
  - split; [done|]. intros e [= ->]. by left.
Qed.

Lemma C10_witness :
  NotifyProxy Sample.NewRequest (Sample.Do 405) "localhost" 7331 = None.
Proof.
  eapply (proj1 (C10_NotifyProxy_ignores_status Sample.NewRequest (Sample.Do 405)
                   "localhost" 7331)); reflexivity.
Defined.

(** C6, as the code has it.  Whatever the network does: a body that is a
    stream (of any length, zero included) is read to its end exactly once,
    and closed, before the first call of the network; after that the loop
    only calls the network and sleeps, every call carries a clone of the
    request whose body is a stream of its own (never the original one,
    which is left exhausted) offering exactly the buffered bytes.  A request
    whose body is [nil] or [http.NoBody] is not read and is handed on as it
    is, without a buffered body. *)
Theorem C6_body_is_buffered_once_and_replayed
    (network : nat -> Outcome) (rt : roundTripper) (r : Request) (w : World)
    (res : option Response * option error) (w' : World) :
  RoundTrip network rt r w = (res, w') ->
  match ReqBody r with
  | streamBody h =>
      forall b : list byte,
        heap w !! h = Some (mkReader b None) ->
        exists evs : list Event,
          trace w' = trace w ++ [EvRead h; EvClose h] ++ evs /\
          Forall (replays r (length (heap w)) b) evs /\
          (h < length (heap w))%nat /\
          heap w' !! h = Some (mkReader [] None)
  | _ =>
      exists evs : list Event,
        trace w' = trace w ++ evs /\ Forall (passes_on r) evs
  end.
Proof.
  intros Hrun. destruct (ReqBody r) as [| |h] eqn:Hbody.
  - rewrite (RoundTrip_buffers network rt r None) in Hrun by (unfold buffers; by rewrite Hbody).
    destruct (retry_shape _ _ _ _ _ _ _ _ _ Hrun) as (evs & hs & Ht & _ & Hevs).
    unfold buffered in Ht. rewrite Hbody in Ht. exists evs. split; [done|].
    eapply Forall_impl; [apply Hevs|]. intros [| | |q pl]; try done.
    simpl. rewrite Hbody. by intros [-> (hp & _ & ->)].
  - rewrite (RoundTrip_buffers network rt r None) in Hrun by (unfold buffers; by rewrite Hbody).
    destruct (retry_shape _ _ _ _ _ _ _ _ _ Hrun) as (evs & hs & Ht & _ & Hevs).
    unfold buffered in Ht. rewrite Hbody in Ht. exists evs. split; [done|].
    eapply Forall_impl; [apply Hevs|]. intros [| | |q pl]; try done.
    simpl. rewrite Hbody. by intros [-> (hp & _ & ->)].
  - intros b Hb.
    rewrite (RoundTrip_buffers network rt r (Some b)) in Hrun
      by (unfold buffers; rewrite Hbody; eauto).
    destruct (retry_shape _ _ _ _ _ _ _ _ _ Hrun) as (evs & hs & Ht & Hh & Hevs).
    unfold buffered in Ht, Hh, Hevs. rewrite Hbody in Ht, Hh, Hevs.
    cbn [heap trace] in Ht, Hh, Hevs.
    pose proof (lookup_lt_Some _ _ _ Hb) as Hlt.
    exists evs. split; [by rewrite Ht, <- app_assoc|]. split; [|split; [done|]].
    + eapply Forall_impl; [apply Hevs|]. intros [| | |q pl]; try done.
      simpl. rewrite length_insert. by intros [-> Hq].
    + rewrite Hh, lookup_app_l by (by rewrite length_insert).
      by apply list_lookup_insert_eq.
Qed.

Lemma C6_witness :
  exists evs : list Event,
    trace (RoundTrip (Sample.refused_then 1 (Sample.reply 200 Sample.html_header Sample.page))
             New_Transport Sample.post (Sample.world (bytes_of "a=1"))).2
    = [] ++ [EvRead 0%nat; EvClose 0%nat] ++ evs /\
    Forall (replays Sample.post 1 (bytes_of "a=1")) evs /\
    (0 < 1)%nat /\
    heap (RoundTrip (Sample.refused_then 1 (Sample.reply 200 Sample.html_header Sample.page))
            New_Transport Sample.post (Sample.world (bytes_of "a=1"))).2 !! 0%nat
    = Some (mkReader [] None).
Proof.
  apply (C6_body_is_buffered_once_and_replayed
           (Sample.refused_then 1 (Sample.reply 200 Sample.html_header Sample.page))
           New_Transport Sample.post (Sample.world (bytes_of "a=1")) _ _
           (surjective_pairing _) (bytes_of "a=1")).
  reflexivity.
Defined.

(** C6, as stated, fails in its last clause: "if the original body was
    empty, no buffered body is attached".  A request whose body is a stream
    that holds no byte (it is neither [nil] nor [http.NoBody]) is buffered
    like any other: [io.ReadAll] returns an empty slice that is not [nil],
    and the clone handed to the network gets a new, empty body stream. *)
Lemma C6_empty_stream_is_buffered :
  let network := Sample.refused_then 0 (Sample.reply 200 Sample.html_header Sample.page) in
  let w := Sample.world [] in
  heap w !! 0%nat = Some (mkReader [] None) /\
  ReqBody Sample.post = streamBody 0 /\
  exists (resp : Response) (w' : World),
    RoundTrip network New_Transport Sample.post w = ((Some resp, None), w') /\
    sent (trace w') = [(with_body Sample.post 1, Some [])] /\
    heap w' !! 1%nat = Some (mkReader [] None).
Proof.
  intros network w. split; [reflexivity|]. split; [reflexivity|].
  eexists _, _. split; [vm_compute; reflexivity|]. split; reflexivity.
Qed.

(** C8, as the code has it.  A response that the transport returns for a
    request carrying "HX-Request: true" is tagged "templ-skip-modify: true",
    and the rewriter then changes nothing of it: no stream, no header.  For a
    request without that header the transport hands on the answer of the
    network untagged, and the rewriter inserts the script tag into an HTML
    response unless the answer itself carries "templ-skip-modify: true". *)
Theorem C8_htmx_requests_skip_the_rewrite `{Gzip}
    (network : nat -> Outcome) (rt : roundTripper) (r : Request) (w : World)
    (resp : Response) (w1 : World) :
  RoundTrip network rt r w = ((Some resp, None), w1) ->
  (Header_Get (ReqHeader r) "HX-Request" = "true"%string ->
   Header_Get (RespHeader resp) "templ-skip-modify" = "true"%string /\
   modifyResponse resp w1 = ((resp, None), w1)) /\
  (Header_Get (ReqHeader r) "HX-Request" <> "true"%string ->
   exists (a : Reply) (i : nat),
     network i = inr a /\
     resp = response_of a (Body resp) /\
     heap w1 !! Body resp = Some (replyBody a) /\
     forall html : list byte,
       rewritable resp ->
       body_text resp (replyBody a) = Some html ->
       (gzip_encoded resp = true ->
        gzip_round_trip /\ exists z, compresses (insertScriptTagIntoBody html) z) ->
       exists (r' : Response) (w' : World) (new : list byte),
         modifyResponse resp w1 = ((r', None), w') /\
         heap w' !! Body r' = Some (mkReader new None) /\
         body_text r' (mkReader new None)
         = Some (insert_before_each bodyClose scriptTag html)).
Proof.
  intros Hrun.
  destruct (RoundTrip_response _ _ _ _ _ _ Hrun) as (a & i & hp & Ha & -> & Hhp).
  unfold setShouldSkipResponseModificationHeader.
  split; intros Hx; (destruct (decide _) as [Hd|Hd]; [|apply dec_stable in Hd]); try done.
  - cbn [RespHeader]. rewrite Header_Get_Set. split; [done|].
    unfold modifyResponse. cbn [RespHeader]. rewrite Header_Get_Set.
    by destruct (decide _).
  - exists a, i. split; [done|]. split; [done|]. split; [done|].
    intros html Hr Htext Hgz.
    destruct (modifyResponse_rewrites _ w1 _ html Hr Hhp Htext Hgz) as (w' & new & Hm & Hn & Ht).
    eexists _, w', new. by repeat split.
Qed.

Lemma C8_witness :
  let a := Sample.reply 200 Sample.html_header Sample.page in
  let network := Sample.refused_then 0 a in
  let tagged := setShouldSkipResponseModificationHeader Sample.htmx_get (response_of a 0) in
  let w_htmx := (RoundTrip network New_Transport Sample.htmx_get (mkWorld [] [])).2 in
  let w_get := (RoundTrip network New_Transport Sample.get (mkWorld [] [])).2 in
  (Header_Get (RespHeader tagged) "templ-skip-modify" = "true"%string /\
   @modifyResponse StoredGzip.codec tagged w_htmx = ((tagged, None), w_htmx)) /\
  exists (r' : Response) (w' : World) (new : list byte),
    @modifyResponse StoredGzip.codec (response_of a 0) w_get = ((r', None), w') /\
    heap w' !! Body r' = Some (mkReader new None) /\
    @body_text StoredGzip.codec r' (mkReader new None)
    = Some (insert_before_each bodyClose scriptTag Sample.page).
Proof.
  intros a network tagged w_htmx w_get. split.
  - apply (proj1 (@C8_htmx_requests_skip_the_rewrite StoredGzip.codec
                    network New_Transport Sample.htmx_get (mkWorld [] []) tagged w_htmx
                    eq_refl)).
    vm_compute; reflexivity.
  - destruct (proj2 (@C8_htmx_requests_skip_the_rewrite StoredGzip.codec
                       network New_Transport Sample.get (mkWorld [] []) (response_of a 0) w_get
                       eq_refl)
                    ltac:(vm_compute; discriminate))
      as (a' & i & Ha & Hresp & Hbody & Hrewrite).
    apply (Hrewrite Sample.page).
    + split; [vm_compute; discriminate | vm_compute; reflexivity].
    + injection Hbody as <-. reflexivity.
    + intros Hgz. vm_compute in Hgz. discriminate.
Defined.

(** C8, as stated, fails in its second half: "for requests without the
    marker header, HTML responses are augmented".  When the answer of the
    upstream server itself carries "Templ-Skip-Modify: true", the transport
    leaves that header in place for a request without "HX-Request", and the
    rewriter skips the HTML response: no script tag is inserted. *)
Lemma C8_upstream_header_suppresses_rewrite :
  let a := Sample.reply 200 Sample.skip_header Sample.page in
  Header_Get (ReqHeader Sample.get) "HX-Request" <> "true"%string /\
  strings.HasPrefix (bytes_of (Header_Get (replyHeader a) "Content-Type")) (bytes_of "text/html") = true /\
  insert_before_each bodyClose scriptTag Sample.page <> Sample.page /\
  exists (resp : Response) (w1 : World),
    RoundTrip (Sample.refused_then 0 a) New_Transport Sample.get (mkWorld [] [])
    = ((Some resp, None), w1) /\
    heap w1 !! Body resp = Some (mkReader Sample.page None) /\
    @modifyResponse StoredGzip.codec resp w1 = ((resp, None), w1).
Proof.
  intros a. split; [vm_compute; discriminate|]. split; [vm_compute; reflexivity|].
  split; [vm_compute; discriminate|].
  eexists _, _. split; [vm_compute; reflexivity|]. split; reflexivity.
Qed.

(** * Further properties of the code *)

(** ** The insertion, counted and repeated *)

Section ReplaceLength.

Import strings.

Variables (old new : list byte).
Hypothesis old_not_empty : (0 < length old)%nat.

Lemma Replace_loop_length (fuel : nat) :
  forall s : list byte,
    (length s < fuel)%nat ->
    (length (Replace_loop (Count_loop fuel s old 0) s old new)
     + Count_loop fuel s old 0 * length old
     = length s + Count_loop fuel s old 0 * length new)%nat.
Proof.
  induction fuel as [|fuel IH]; intros s Hf; [lia|].
  simpl. destruct (Index s old) as [j|] eqn:E; [|simpl; lia].
  rewrite Count_loop_acc. simpl. rewrite E.
  pose proof (Index_Some_le _ _ _ E) as Hle.
  specialize (IH (drop (j + length old) s)).
  rewrite length_drop in IH. specialize (IH ltac:(lia)).
  rewrite !length_app, length_take. lia.
Qed.

(** Replacing every instance: each of the [Count s old] instances gives way
    to a copy of [new]. *)
Lemma Replace_all_length (s : list byte) :
  old <> new ->
  (length (Replace s old new (-1)) + Count s old * length old
   = length s + Count s old * length new)%nat.
Proof.
  intros Hne. unfold Replace.
  destruct (decide (old = new)); [done|].
  destruct (decide (-1 = 0)) as [|_]; [lia|].
  destruct (decide (Count s old = 0%nat)) as [->|_]; [lia|].
  destruct (decide _) as [_|Hn]; [|lia].
  apply Replace_loop_length. lia.
Qed.

End ReplaceLength.

(** The length of a rewritten body, from the general fact. *)
Ltac insert_length body H :=
  pose proof (Replace_all_length bodyClose (scriptTag ++ bodyClose) ltac:(simpl; lia) body
                ltac:(discriminate)) as H;
  fold (insertScriptTagIntoBody body) in H;
  change (length (scriptTag ++ bodyClose)) with 55%nat in H;
  change (length bodyClose) with 7%nat in H.

Lemma Count_positive (s : list byte) (j : nat) :
  strings.Index s bodyClose = Some j -> (0 < strings.Count s bodyClose)%nat.
Proof.
  intros E. unfold strings.Count. simpl. rewrite E.
  rewrite Count_loop_acc. lia.
Qed.

Lemma Count_zero (s : list byte) :
  strings.Index s bodyClose = None -> strings.Count s bodyClose = 0%nat.
Proof. intros E. unfold strings.Count. simpl. by rewrite E. Qed.

(** X1. The rewritten body is longer than the body by the 48 bytes of the
    script tag for every instance that [strings.Count] counts of "</body>". *)
Theorem insertScriptTagIntoBody_length (body : list byte) :
  length (insertScriptTagIntoBody body)
  = (length body + 48 * strings.Count body bodyClose)%nat.
Proof. insert_length body H. lia. Qed.

(** X2. A body is returned as it is exactly when it holds no "</body>". *)
Theorem insertScriptTagIntoBody_unchanged_iff (body : list byte) :
  insertScriptTagIntoBody body = body <-> strings.Index body bodyClose = None.
Proof.
  split.
  - intros Heq. insert_length body H. rewrite Heq in H.
    destruct (strings.Index body bodyClose) as [j|] eqn:E; [|done].
    pose proof (Count_positive _ _ E). lia.
  - intros E. unfold insertScriptTagIntoBody, strings.Replace.
    destruct (decide _); [done|]. destruct (decide _); [done|].
    rewrite (Count_zero _ E). by destruct (decide _).
Qed.

Section InsertTwice.

Import strings.

Variables (c : byte) (t ins' : list byte).
Hypothesis c_fresh : Forall (fun x => x <> c) t.

Local Abbreviation tag := (c :: t).
Local Abbreviation ins := (c :: ins').

(** Seen through a prefix without the first byte of the tag, a body and its
    rewriting look the same. *)
Lemma HasPrefix_insert (u : list byte) :
  Forall (fun x => x <> c) u ->
  forall s : list byte,
    HasPrefix (insert_before_each tag ins s) u = HasPrefix s u.
Proof.
  induction 1 as [|x u Hx _ IH]; intros s; [done|].
  destruct s as [|a s]; [done|].
  cbn [insert_before_each].
  destruct (HasPrefix (a :: s) tag) eqn:E.
  - simpl in E. destruct (decide (c = a)) as [<-|]; [|done].
    simpl. destruct (decide (x = c)); [done|]. done.
  - simpl. destruct (decide (x = a)); [apply IH | done].
Qed.

Lemma insert_twice :
  (forall x, insert_before_each tag ins (ins ++ x) = ins ++ insert_before_each tag ins x) ->
  forall s : list byte,
    insert_before_each tag ins (insert_before_each tag ins s)
    = insert_before_each tag (ins ++ ins) s.
Proof.
  intros Hskip. induction s as [|a s IH]; [done|].
  assert (Hsame : HasPrefix (a :: insert_before_each tag ins s) tag = HasPrefix (a :: s) tag).
  { simpl. destruct (decide (c = a)); [by apply HasPrefix_insert | done]. }
  cbn [insert_before_each].
  destruct (HasPrefix (a :: s) tag) eqn:E.
  - rewrite Hskip. cbn [insert_before_each]. rewrite Hsame, IH.
    by rewrite <- !app_assoc.
  - cbn [app insert_before_each]. rewrite Hsame. cbn [app]. by rewrite IH.
Qed.

End InsertTwice.

(** X3. The rewrite is not idempotent: a body that is rewritten twice
    carries the script tag twice in front of every "</body>", and so differs
    from the body rewritten once as soon as there is a "</body>". *)
Theorem insertScriptTagIntoBody_twice (body : list byte) :
  insertScriptTagIntoBody (insertScriptTagIntoBody body)
  = insert_before_each bodyClose (scriptTag ++ scriptTag) body /\
  (strings.Index body bodyClose <> None ->
   insertScriptTagIntoBody (insertScriptTagIntoBody body) <> insertScriptTagIntoBody body).
Proof.
  assert (Htwice : insertScriptTagIntoBody (insertScriptTagIntoBody body)
                   = insert_before_each bodyClose (scriptTag ++ scriptTag) body).
  { rewrite !insertScriptTagIntoBody_spec.
    change bodyClose with ("<"%byte :: bytes_of "/body>").
    change scriptTag with ("<"%byte :: tl scriptTag).
    apply insert_twice.
    - vm_compute. repeat constructor; discriminate.
    - intros x. vm_compute. reflexivity. }
  split; [done|].
  intros Hsome Heq. apply (f_equal length) in Heq.
  insert_length body H1.
  pose proof (insert_before_each_length bodyClose scriptTag body 0) as H3.
  rewrite <- insertScriptTagIntoBody_spec in H3.
  rewrite Htwice, (insert_before_each_length _ _ _ 0) in Heq.
  change (length (scriptTag ++ scriptTag)) with 96%nat in Heq.
  change (length scriptTag) with 48%nat in H3.
  destruct (strings.Index body bodyClose) as [k|] eqn:E; [|done].
  pose proof (Count_positive _ _ E). lia.
Qed.

Lemma insertScriptTagIntoBody_twice_witness :
  insertScriptTagIntoBody (insertScriptTagIntoBody Sample.page)
  <> insertScriptTagIntoBody Sample.page.
Proof.
  apply (proj2 (insertScriptTagIntoBody_twice Sample.page)).
  vm_compute. discriminate.
Defined.

(** ** What the rewriter leaves alone *)

(** Every run of [modifyResponse] ends in one of these ways. *)
Lemma modifyResponse_outcomes `{Gzip}
    (r r' : Response) (e : option error) (w w' : World) :
  modifyResponse r w = ((r', e), w') -> modify_outcome r w r' e w'.
Proof.
  assert (Hread : forall (x : Reader) (evs : list Event) (tail : list Reader)
                         (r0 : Response) (e0 : option error),
             Forall (fun ev => ev = EvRead (Body r)) evs -> (length evs <= 2)%nat ->
             ((r0 = r /\ tail = []) \/
              (e0 = None /\ exists new : list byte,
                 tail = [mkReader new None] /\ r0 = set_body r (length (heap w)) (length new))) ->
             (r0, e0, mkWorld (<[Body r := x]> (heap w) ++ tail) (trace w ++ evs)) = (r', e, w') ->
             modify_outcome r w r' e w').
  { intros x evs tail r0 e0 Hevs Hlen Hcase [= <- <- <-].
    exists (<[Body r := x]> (heap w)), tail, evs. cbn [heap trace].
    split; [done|]. split; [by rewrite length_insert|].
    split; [intros h Hh; by rewrite list_lookup_insert_ne|]. done. }
  assert (Hnone : forall e0 : option error, (r, e0, w) = (r', e, w') -> modify_outcome r w r' e w').
  { intros e0 [= <- <- <-].
    exists (heap w), [], []; rewrite !app_nil_r; repeat split; auto. }
  assert (Hkeep : forall x evs e0,
             Forall (fun ev => ev = EvRead (Body r)) evs -> (length evs <= 2)%nat ->
             (r, e0, mkWorld (<[Body r := x]> (heap w)) (trace w ++ evs)) = (r', e, w') ->
             modify_outcome r w r' e w').
  { intros x evs e0 Hevs Hlen Heq. apply (Hread x evs [] r e0); auto.
    by rewrite app_nil_r. }
  assert (H1 : Forall (fun ev => ev = EvRead (Body r)) [EvRead (Body r)])
    by (by constructor).
  assert (H2 : Forall (fun ev => ev = EvRead (Body r)) [EvRead (Body r); EvRead (Body r)])
    by (by repeat constructor).
  unfold modifyResponse.
  destruct (decide _) as [|_]; [apply Hnone|].
  destruct (negb _); [apply Hnone|].
  destruct (decide _) as [_|_].
  - destruct (heap w !! Body r) as [rd|] eqn:Hrd.
    + rewrite (updateGzipResponse_run _ _ _ Hrd). cbn zeta.
      destruct (gz_NewReader rd) as [rd1 [g|e1]]; [|apply Hkeep; simpl; auto].
      destruct (gz_ReadAll g rd1) as [rd2 [body [e2|]]].
      { rewrite <- app_assoc. apply Hkeep; simpl; auto. }
      destruct (gz_Write _) as [gw [e3|]].
      { rewrite <- app_assoc. apply Hkeep; simpl; auto. }
      destruct (gz_Close gw) as [buf [e4|]].
      { rewrite <- app_assoc. apply Hkeep; simpl; auto. }
      cbn [heap trace]. rewrite <- app_assoc. apply Hread; simpl; eauto.
    + unfold updateGzipResponse, bind, gzip_NewReader, on_stream. rewrite Hrd.
      apply Hnone.
  - destruct (heap w !! Body r) as [rd|] eqn:Hrd.
    + rewrite (updatePlainResponse_run _ _ _ Hrd). cbn zeta.
      destruct (failure rd); [apply Hkeep; simpl; auto|].
      cbn [heap trace]. apply Hread; simpl; eauto.
    + unfold updatePlainResponse, bind, io_ReadAll, on_stream. rewrite Hrd.
      apply Hnone.
Qed.

(** X4. Whatever the response and however the run ends, [modifyResponse]
    keeps the status code and every header other than Content-Length, with
    all its values; the body of the response is the one it had or, after a
    rewrite without error, a stream that did not exist before. *)
Theorem modifyResponse_keeps_status_and_other_headers `{Gzip}
    (r r' : Response) (e : option error) (w w' : World) :
  modifyResponse r w = ((r', e), w') ->
  StatusCode r' = StatusCode r /\
  (forall key : string, key <> "Content-Length"%string ->
     RespHeader r' !! key = RespHeader r !! key) /\
  (Body r' = Body r \/ (e = None /\ Body r' = length (heap w) /\ heap w !! Body r' = None)).
Proof.
  intros (hp & tail & evs & _ & _ & _ & _ & _ & _ & Hcase)%modifyResponse_outcomes.
  destruct Hcase as [[-> _]|(-> & new & _ & ->)]; [by auto|].
  split; [done|]. split.
  - intros key Hkey. cbn [set_body RespHeader]. unfold Header_Set.
    by rewrite lookup_insert_ne.
  - right. split; [done|]. split; [done|]. by apply lookup_ge_None_2.
Qed.

Lemma modifyResponse_keeps_status_and_other_headers_witness :
  let run := @modifyResponse StoredGzip.codec (Sample.response Sample.br_header)
               (Sample.world Sample.page) in
  StatusCode run.1.1 = 200 /\
  (forall key : string, key <> "Content-Length"%string ->
     RespHeader run.1.1 !! key = Sample.br_header !! key) /\
  (Body run.1.1 = 0%nat \/
   (run.1.2 = None /\ Body run.1.1 = 1%nat /\ heap (Sample.world Sample.page) !! Body run.1.1 = None)).
Proof.
  intros run.
  apply (@modifyResponse_keeps_status_and_other_headers StoredGzip.codec
           (Sample.response Sample.br_header) run.1.1 run.1.2
           (Sample.world Sample.page) run.2).
  reflexivity.
Defined.

(** X5. [modifyResponse] works on the body stream of the response and on
    nothing else: every other stream is as before, no stream disappears and
    at most one is created; it reads the body at most twice, never calls the
    network and never sleeps. *)
Theorem modifyResponse_touches_only_the_body_stream `{Gzip}
    (r r' : Response) (e : option error) (w w' : World) :
  modifyResponse r w = ((r', e), w') ->
  (forall (h : handle) (rd : Reader),
     h <> Body r -> heap w !! h = Some rd -> heap w' !! h = Some rd) /\
  (length (heap w) <= length (heap w') <= S (length (heap w)))%nat /\
  (exists evs : list Event,
     trace w' = trace w ++ evs /\
     Forall (fun ev => ev = EvRead (Body r)) evs /\ (length evs <= 2)%nat) /\
  calls (trace w') = calls (trace w) /\
  sleeps (trace w') = sleeps (trace w).
Proof.
  intros (hp & tail & evs & Hh & Hlen & Hother & Ht & Hevs & Hn & Hcase)%modifyResponse_outcomes.
  assert (Hquiet : calls evs = 0%nat /\ sleeps evs = []).
  { clear -Hevs. induction Hevs as [|ev evs -> _ [IH1 IH2]]; [done|].
    split; [exact IH1 | exact IH2]. }
  split; [|split; [|split; [eauto|]]].
  - intros h rd Hne Hrd. rewrite Hh, lookup_app_l.
    + by rewrite Hother.
    + rewrite Hlen. by eapply lookup_lt_Some.
  - rewrite Hh, length_app, Hlen.
    destruct Hcase as [[_ ->]|(_ & new & -> & _)]; simpl; lia.
  - rewrite Ht, calls_app, sleeps_app. destruct Hquiet as [-> ->].
    by rewrite Nat.add_0_r, app_nil_r.
Qed.

Lemma modifyResponse_touches_only_the_body_stream_witness :
  let w := mkWorld [mkReader (StoredGzip.compress Sample.page) None; mkReader Sample.page None] [] in
  let run := @modifyResponse StoredGzip.codec (Sample.response Sample.gzip_header) w in
  (forall (h : handle) (rd : Reader),
     h <> 0%nat -> heap w !! h = Some rd -> heap run.2 !! h = Some rd) /\
  (2 <= length (heap run.2) <= 3)%nat /\
  (exists evs : list Event,
     trace run.2 = [] ++ evs /\
     Forall (fun ev => ev = EvRead 0%nat) evs /\ (length evs <= 2)%nat) /\
  calls (trace run.2) = 0%nat /\
  sleeps (trace run.2) = [].
Proof.
  intros w run.
  apply (@modifyResponse_touches_only_the_body_stream StoredGzip.codec
           (Sample.response Sample.gzip_header) run.1.1 run.1.2 w run.2).
  reflexivity.
Defined.

(** X6. When reading the body of a plain HTML response fails, the error of
    the stream is what [modifyResponse] returns; the response keeps its
    headers, lengths and body reference, and the stream is left at its
    failing end: the bytes read before the error are not kept anywhere. *)
Theorem modifyResponse_surfaces_read_error `{Gzip}
    (r : Response) (w : World) (rd : Reader) (e : error) :
  rewritable r ->
  gzip_encoded r = false ->
  heap w !! Body r = Some rd ->
  failure rd = Some e ->
  exists w' : World,
    modifyResponse r w = ((r, Some e), w') /\
    heap w' = <[Body r := mkReader [] (Some e)]> (heap w) /\
    trace w' = trace w ++ [EvRead (Body r)].
Proof.
  intros Hr Hgz Hrd He.
  rewrite modifyResponse_plain, (updatePlainResponse_run _ _ _ Hrd) by done.
  rewrite He. eauto.
Qed.

Lemma modifyResponse_surfaces_read_error_witness :
  let r := Sample.response Sample.html_header in
  let e := readError "connection reset by peer" in
  let w := mkWorld [mkReader (bytes_of "<html><bo") (Some e)] [] in
  exists w' : World,
    @modifyResponse StoredGzip.codec r w = ((r, Some e), w') /\
    heap w' = <[0%nat := mkReader [] (Some e)]> (heap w) /\
    trace w' = [] ++ [EvRead 0%nat].
Proof.
  intros r e w.
  apply (@modifyResponse_surfaces_read_error StoredGzip.codec r w
           (mkReader (bytes_of "<html><bo") (Some e)) e).
  - split; [vm_compute; discriminate | vm_compute; reflexivity].
  - vm_compute; reflexivity.
  - reflexivity.
  - reflexivity.
Defined.

(** ** The transport, for every network *)

Lemma sleeps_buffered (r : Request) (w : World) :
  sleeps (trace (buffered w r)) = sleeps (trace w).
Proof.
  unfold buffered. destruct (ReqBody r); [done..|].
  cbn [trace]. by rewrite sleeps_app, app_nil_r.
Qed.

Lemma slept_app (tr1 tr2 : list Event) : slept (tr1 ++ tr2) = slept tr1 + slept tr2.
Proof.
  unfold slept. rewrite sleeps_app. induction (sleeps tr1) as [|d ds IH]; simpl; lia.
Qed.

(** The first answer among the next [n] calls, if there is one. *)
Lemma first_answer (network : nat -> Outcome) (from n : nat) :
  fails_from network from n \/
  exists (k : nat) (a : Reply),
    (k < n)%nat /\ fails_from network from k /\ network (from + k)%nat = inr a.
Proof.
  induction n as [|n [IH|(k & a & Hk & Hf & Ha)]].
  - left. intros i Hi. lia.
  - destruct (network (from + n)%nat) as [msg|a] eqn:E.
    + left. intros i Hi. destruct (decide (i = n)) as [->|]; [eauto|]. apply IH. lia.
    + right. exists n, a. auto.
  - right. exists k, a. auto.
Qed.

(** Every run of [RoundTrip] on a request whose body can be buffered: [k]
    calls fail, each followed by its sleep, and then either the loop is over
    or the next call is answered. *)
Lemma RoundTrip_accounting
    (network : nat -> Outcome) (rt : roundTripper) (r : Request)
    (bb : option (list byte)) (w : World) :
  buffers w r bb ->
  exists (k : nat) (w' : World),
    fails_from network (calls (trace w)) k /\
    sleeps (trace w') = sleeps (trace w) ++ backoffs rt k /\
    ((k = Z.to_nat (maxRetries rt) /\
      RoundTrip network rt r w = ((None, Some (errorString "max retries reached")), w') /\
      calls (trace w') = (calls (trace w) + k)%nat) \/
     ((k < Z.to_nat (maxRetries rt))%nat /\
      exists (a : Reply) (hp : handle),
        network (calls (trace w) + k)%nat = inr a /\
        RoundTrip network rt r w
        = ((Some (setShouldSkipResponseModificationHeader r (response_of a hp)), None), w') /\
        heap w' !! hp = Some (replyBody a) /\
        calls (trace w') = (calls (trace w) + S k)%nat)).
Proof.
  intros Hb.
  destruct (first_answer network (calls (trace w)) (Z.to_nat (maxRetries rt)))
    as [Hfail|(k & a & Hk & Hfail & Ha)].
  - exists (Z.to_nat (maxRetries rt)),
           (after_failures rt r bb (Z.to_nat (maxRetries rt)) 0 (buffered w r)).
    split; [exact Hfail|]. split; [|left; split; [done|]].
    + rewrite sleeps_after_failures, sleeps_buffered. done.
    + split; [by apply RoundTrip_exhausted|].
      by rewrite calls_after_failures, calls_buffered.
  - destruct (RoundTrip_answered_trace network rt r bb w k a Hb Hk Hfail Ha)
      as (hp & w' & Hrun & Hhp & Hcalls & Hsleeps).
    exists k, w'. split; [done|]. split; [done|]. right. split; [done|].
    exists a, hp. auto.
Qed.

(** The preparation of a run: the body cannot be read, or it is buffered. *)
Lemma RoundTrip_prelude (network : nat -> Outcome) (rt : roundTripper) (r : Request) (w : World) :
  (exists (h : handle) (e : error),
     ReqBody r = streamBody h /\
     RoundTrip network rt r w
     = ((None, Some e),
        match heap w !! h with
        | Some rd => mkWorld (<[h := mkReader [] (failure rd)]> (heap w)) (trace w ++ [EvRead h])
        | None => w
        end) /\
     (heap w !! h = None \/ exists rd, heap w !! h = Some rd /\ failure rd = Some e)) \/
  exists bb : option (list byte), buffers w r bb.
Proof.
  unfold buffers. destruct (ReqBody r) as [| |h] eqn:Hbody; [right; eauto..|].
  destruct (heap w !! h) as [[b [e|]]|] eqn:Hh.
  - left. exists h, e. split; [done|]. split; [|eauto].
    unfold RoundTrip, bind, io_ReadAll, on_stream, drain. by rewrite Hbody, Hh.
  - right. eauto.
  - left. exists h, errInvalidStream. split; [done|]. split; [|eauto].
    unfold RoundTrip, bind, io_ReadAll, on_stream. by rewrite Hbody, Hh.
Qed.

(** X7. When the body of the request cannot be read to its end, [RoundTrip]
    returns the error of the stream and no response; it has not called the
    network, not slept, and not closed the body. *)
Theorem RoundTrip_body_read_error
    (network : nat -> Outcome) (rt : roundTripper) (r : Request) (w : World)
    (h : handle) (rd : Reader) (e : error) :
  ReqBody r = streamBody h ->
  heap w !! h = Some rd ->
  failure rd = Some e ->
  exists w' : World,
    RoundTrip network rt r w = ((None, Some e), w') /\
    trace w' = trace w ++ [EvRead h] /\
    heap w' = <[h := mkReader [] (Some e)]> (heap w).
Proof.
  intros Hbody Hh He. unfold RoundTrip, bind, io_ReadAll, on_stream, drain.
  rewrite Hbody, Hh, He. eauto.
Qed.

Lemma RoundTrip_body_read_error_witness :
  let e := readError "unexpected EOF" in
  let w := mkWorld [mkReader (bytes_of "a=") (Some e)] [] in
  exists w' : World,
    RoundTrip Sample.always_refused New_Transport Sample.post w = ((None, Some e), w') /\
    trace w' = [] ++ [EvRead 0%nat] /\
    heap w' = <[0%nat := mkReader [] (Some e)]> (heap w).
Proof.
  intros e w.
  apply (RoundTrip_body_read_error Sample.always_refused New_Transport Sample.post w
           0%nat (mkReader (bytes_of "a=") (Some e)) e); reflexivity.
Defined.

(** X8. Whatever the network does, a run of [RoundTrip] calls it at most
    [maxRetries] times, and returns either a response and no error or an
    error and no response. *)
Theorem RoundTrip_calls_are_bounded
    (network : nat -> Outcome) (rt : roundTripper) (r : Request) (w : World)
    (res : option Response * option error) (w' : World) :
  RoundTrip network rt r w = (res, w') ->
  (calls (trace w) <= calls (trace w') <= calls (trace w) + Z.to_nat (maxRetries rt))%nat /\
  ((exists resp : Response, res = (Some resp, None)) \/
   (exists e : error, res = (None, Some e))).
Proof.
  intros Hrun.
  destruct (RoundTrip_prelude network rt r w) as [(h & e & _ & He & Hw)|[bb Hb]].
  - rewrite He in Hrun. injection Hrun as <- <-. split; [|eauto].
    destruct Hw as [->|(rd & -> & _)]; [lia|].
    cbn [trace]. rewrite calls_app. change (calls [EvRead h]) with 0%nat. lia.
  - destruct (RoundTrip_accounting network rt r bb w Hb)
      as (k & w1 & _ & _ & [(Hk & Hr & Hc)|(Hk & a & hp & _ & Hr & _ & Hc)]);
      rewrite Hr in Hrun; injection Hrun as <- <-; split; eauto; lia.
Qed.

Lemma RoundTrip_calls_are_bounded_witness :
  let run := RoundTrip (Sample.refused_then 3 (Sample.reply 404 Sample.html_header Sample.page))
               New_Transport Sample.post (Sample.world (bytes_of "a=1")) in
  (0 <= calls (trace run.2) <= 0 + 10)%nat /\
  ((exists resp : Response, run.1 = (Some resp, None)) \/
   (exists e : error, run.1 = (None, Some e))).
Proof.
  intros run.
  apply (RoundTrip_calls_are_bounded
           (Sample.refused_then 3 (Sample.reply 404 Sample.html_header Sample.page))
           New_Transport Sample.post (Sample.world (bytes_of "a=1")) run.1 run.2).
  apply surjective_pairing.
Defined.

Lemma after_failures_last (rt : roundTripper) (r : Request) (bb : option (list byte)) (k : nat) :
  forall (retries : Z) (w : World),
    exists tr : list Event,
      trace (after_failures rt r bb (S k) retries w)
      = tr ++ [EvSleep (backoff rt (retries + Z.of_nat k))].
Proof.
  induction k as [|k IH]; intros retries w.
  - cbn [after_failures after_failure trace]. eexists (_ ++ [_]).
    rewrite <- app_assoc, Z.add_0_r. done.
  - destruct (IH (retries + 1) (after_failure rt r bb retries w)) as [tr Htr].
    exists tr. change (after_failures rt r bb (S (S k)) retries w)
      with (after_failures rt r bb (S k) (retries + 1) (after_failure rt r bb retries w)).
    rewrite Htr. by replace (retries + Z.of_nat (S k)) with (retries + 1 + Z.of_nat k) by lia.
Qed.

(** X9. A sleep follows every failed call, the last one included: when all
    [maxRetries] calls fail, [RoundTrip] has slept [maxRetries] times, and
    its last act before returning the error is the longest sleep. *)
Theorem RoundTrip_sleeps_after_the_last_failure
    (network : nat -> Outcome) (rt : roundTripper) (r : Request)
    (bodyBytes : option (list byte)) (w : World) (n : nat) :
  buffers w r bodyBytes ->
  Z.to_nat (maxRetries rt) = S n ->
  fails_from network (calls (trace w)) (S n) ->
  exists (w' : World) (tr : list Event),
    RoundTrip network rt r w = ((None, Some (errorString "max retries reached")), w') /\
    sleeps (trace w') = sleeps (trace w) ++ backoffs rt (S n) /\
    trace w' = tr ++ [EvSleep (backoff rt (Z.of_nat n))].
Proof.
  intros Hb Hmax Hfail. rewrite <- Hmax in Hfail.
  rewrite (RoundTrip_exhausted network rt r bodyBytes w Hb Hfail), Hmax.
  destruct (after_failures_last rt r bodyBytes n 0 (buffered w r)) as [tr Htr].
  eexists _, tr. split; [done|]. split; [|by rewrite Htr].
  by rewrite sleeps_after_failures, sleeps_buffered.
Qed.

Lemma RoundTrip_sleeps_after_the_last_failure_witness :
  exists (w' : World) (tr : list Event),
    RoundTrip Sample.always_refused New_Transport Sample.get (mkWorld [] [])
    = ((None, Some (errorString "max retries reached")), w') /\
    sleeps (trace w') = [] ++ backoffs New_Transport 10 /\
    trace w' = tr ++ [EvSleep (backoff New_Transport 9)].
Proof.
  apply (RoundTrip_sleeps_after_the_last_failure Sample.always_refused New_Transport
           Sample.get None (mkWorld [] []) 9).
  - reflexivity.
  - reflexivity.
  - intros i _. by exists "dial tcp: connection refused"%string.
Defined.

(** X10. Under the policy that [New] installs, a request to an upstream
    that cannot be reached fails after exactly ten calls and ten sleeps of
    11 seconds in all. *)
Theorem RoundTrip_New_policy_gives_up_after_11s
    (network : nat -> Outcome) (r : Request) (bodyBytes : option (list byte)) (w : World) :
  buffers w r bodyBytes ->
  fails_from network (calls (trace w)) 10 ->
  exists w' : World,
    RoundTrip network New_Transport r w
    = ((None, Some (errorString "max retries reached")), w') /\
    calls (trace w') = (calls (trace w) + 10)%nat /\
    length (sleeps (trace w')) = (length (sleeps (trace w)) + 10)%nat /\
    slept (trace w') = slept (trace w) + 11000 * time.Millisecond.
Proof.
  intros Hb Hfail.
  rewrite (RoundTrip_exhausted network New_Transport r bodyBytes w Hb Hfail).
  eexists. split; [done|].
  change (Z.to_nat (maxRetries New_Transport)) with 10%nat.
  split; [by rewrite calls_after_failures, calls_buffered|].
  assert (Hs : sleeps (trace (after_failures New_Transport r bodyBytes 10 0 (buffered w r)))
               = sleeps (trace w) ++ backoffs New_Transport 10)
    by (by rewrite sleeps_after_failures, sleeps_buffered).
  split; [by rewrite Hs, length_app|].
  unfold slept. rewrite Hs, foldr_app.
  change (foldr Z.add 0 (backoffs New_Transport 10)) with (11000 * time.Millisecond).
  generalize (11000 * time.Millisecond), (sleeps (trace w)). clear.
  intros t ds. induction ds as [|d ds IH]; simpl; lia.
Qed.

Lemma RoundTrip_New_policy_gives_up_after_11s_witness :
  exists w' : World,
    RoundTrip Sample.always_refused New_Transport Sample.post (Sample.world (bytes_of "a=1"))
    = ((None, Some (errorString "max retries reached")), w') /\
    calls (trace w') = (0 + 10)%nat /\
    length (sleeps (trace w')) = (0 + 10)%nat /\
    slept (trace w') = 0 + 11000 * time.Millisecond.
Proof.
  apply (RoundTrip_New_policy_gives_up_after_11s Sample.always_refused Sample.post
           (Some (bytes_of "a=1")) (Sample.world (bytes_of "a=1"))).
  - exists (bytes_of "a=1"). split; reflexivity.
  - intros i _. by exists "dial tcp: connection refused"%string.
Defined.

(** X11. With [maxRetries] zero or negative the network is never called:
    [RoundTrip] returns the "max retries reached" error at once, yet it has
    already read and closed the body of the request. *)
Theorem RoundTrip_without_retries_makes_no_call
    (network : nat -> Outcome) (rt : roundTripper) (r : Request)
    (bodyBytes : option (list byte)) (w : World) :
  maxRetries rt <= 0 ->
  buffers w r bodyBytes ->
  RoundTrip network rt r w
  = ((None, Some (errorString "max retries reached")), buffered w r) /\
  calls (trace (buffered w r)) = calls (trace w) /\
  sleeps (trace (buffered w r)) = sleeps (trace w).
Proof.
  intros Hmax Hb. rewrite (RoundTrip_buffers network rt r bodyBytes w Hb).
  replace (Z.to_nat (maxRetries rt)) with 0%nat by lia.
  split; [done|]. split; [apply calls_buffered | apply sleeps_buffered].
Qed.

Lemma RoundTrip_without_retries_makes_no_call_witness :
  let rt := {| maxRetries := 0; initialDelay := 100 * time.Millisecond; backoffExponent := 3 # 2 |} in
  let w := Sample.world (bytes_of "a=1") in
  RoundTrip (Sample.refused_then 0 (Sample.reply 200 Sample.html_header Sample.page)) rt Sample.post w
  = ((None, Some (errorString "max retries reached")),
     mkWorld [mkReader [] None] [EvRead 0%nat; EvClose 0%nat]) /\
  calls (trace (buffered w Sample.post)) = calls (trace w) /\
  sleeps (trace (buffered w Sample.post)) = sleeps (trace w).
Proof.
  intros rt w.
  apply (RoundTrip_without_retries_makes_no_call
           (Sample.refused_then 0 (Sample.reply 200 Sample.html_header Sample.page))
           rt Sample.post (Some (bytes_of "a=1")) w).
  - simpl. lia.
  - exists (bytes_of "a=1"). split; reflexivity.
Defined.

(** The body of a response that [retry] returns is a stream created during
    the run. *)
Lemma retry_response_fresh (network : nat -> Outcome) (rt : roundTripper) (r : Request)
    (bb : option (list byte)) (todo : nat) :
  forall (retries : Z) (w : World) (resp : Response) (w' : World),
    retry network rt r bb todo retries w = ((Some resp, None), w') ->
    (length (heap w) <= Body resp)%nat.
Proof.
  induction todo as [|todo IH]; intros retries w resp w' Hrun; [done|].
  destruct (network (calls (trace w))) as [msg|a] eqn:Hnet.
  - rewrite (retry_failure _ _ _ _ _ _ _ _ Hnet) in Hrun.
    apply IH in Hrun. cbn [after_failure heap] in Hrun. rewrite length_app in Hrun. lia.
  - rewrite (retry_success _ _ _ _ _ _ _ _ Hnet) in Hrun.
    injection Hrun as <- _. unfold setShouldSkipResponseModificationHeader.
    destruct (decide _); cbn [Body response_of]; rewrite length_app; lia.
Qed.

(** X12. A response that [RoundTrip] returns is an answer of the network
    with its status code, its content length and its body, which has not
    been read, as the network gave them; of its headers only
    Templ-Skip-Modify can differ. *)
Theorem RoundTrip_returns_the_answer_intact
    (network : nat -> Outcome) (rt : roundTripper) (r : Request) (w : World)
    (resp : Response) (w' : World) :
  RoundTrip network rt r w = ((Some resp, None), w') ->
  exists (a : Reply) (i : nat),
    network i = inr a /\
    StatusCode resp = replyStatus a /\
    ContentLength resp = replyContentLength a /\
    heap w' !! Body resp = Some (replyBody a) /\
    heap w !! Body resp = None /\
    forall key : string, key <> "Templ-Skip-Modify"%string ->
      RespHeader resp !! key = replyHeader a !! key.
Proof.
  intros Hrun.
  assert (Hfresh : heap w !! Body resp = None).
  { apply lookup_ge_None_2.
    destruct (RoundTrip_prelude network rt r w) as [(h & e0 & _ & He & _)|[bb Hb]].
    - rewrite He in Hrun. discriminate.
    - rewrite (RoundTrip_buffers network rt r bb w Hb) in Hrun.
      apply retry_response_fresh in Hrun.
      unfold buffered in Hrun. destruct (ReqBody r); [done..|].
      cbn [heap] in Hrun. by rewrite length_insert in Hrun. }
  destruct (RoundTrip_response _ _ _ _ _ _ Hrun) as (a & i & hp & Ha & -> & Hhp).
  exists a, i. revert Hfresh. unfold setShouldSkipResponseModificationHeader.
  destruct (decide _); cbn [StatusCode ContentLength Body RespHeader response_of]; intros Hfresh.
  - repeat split; auto.
  - repeat split; auto. intros key Hkey. unfold Header_Set. by rewrite lookup_insert_ne.
Qed.

Lemma RoundTrip_returns_the_answer_intact_witness :
  let a := Sample.reply 503 Sample.html_header Sample.page in
  let run := RoundTrip (Sample.refused_then 2 a) New_Transport Sample.htmx_get (mkWorld [] []) in
  exists (a' : Reply) (i : nat),
    Sample.refused_then 2 a i = inr a' /\
    StatusCode (setShouldSkipResponseModificationHeader Sample.htmx_get (response_of a 0))
    = replyStatus a' /\
    ContentLength (setShouldSkipResponseModificationHeader Sample.htmx_get (response_of a 0))
    = replyContentLength a' /\
    heap run.2 !! 0%nat = Some (replyBody a') /\
    heap (mkWorld [] []) !! 0%nat = None /\
    forall key : string, key <> "Templ-Skip-Modify"%string ->
      RespHeader (setShouldSkipResponseModificationHeader Sample.htmx_get (response_of a 0)) !! key
      = replyHeader a' !! key.
Proof.
  intros a run.
  apply (RoundTrip_returns_the_answer_intact (Sample.refused_then 2 a) New_Transport
           Sample.htmx_get (mkWorld [] [])
           (setShouldSkipResponseModificationHeader Sample.htmx_get (response_of a 0))
           run.2).
  reflexivity.
Defined.

(** ** The waits *)




(** ** The handler *)

(** X14. [ServeHTTP] hands a request to the reverse proxy exactly when its
    path is neither of the two reserved paths, and then does nothing else;
    the proxy is the one [New] configured, with the retrying transport and
    [modifyResponse].  A request to a reserved path never reaches the
    reverse proxy, whatever its method. *)
Theorem ServeHTTP_forwards_unreserved_paths_only `{Gzip}
    (script : list byte) (write_error : option error)
    (bind : string) (port : Z) (target : string) (path : string) (r : Request) :
  let h := New bind port target in
  let acts := ServeHTTP script write_error h path r in
  ((path <> "/_templ/reload/script.js"%string /\ path <> "/_templ/reload/events"%string) <->
   acts = [proxy_ServeHTTP (p h) r]) /\
  ((exists (rp : ReverseProxy) (q : Request), proxy_ServeHTTP rp q ∈ acts) ->
   acts = [proxy_ServeHTTP (p h) r] /\
   Transport (p h) = New_Transport /\ ModifyResponse (p h) = modifyResponse).
Proof.
  intros h acts. subst acts. unfold ServeHTTP.
  destruct (decide (path = _)) as [->|Hs].
  - split.
    + split; [by intros [? _]|]. destruct write_error; discriminate.
    + intros (rp & q & Hin). exfalso.
      destruct write_error; set_solver.
  - destruct (decide (path = _)) as [->|He].
    + split.
      * split; [by intros [_ ?]|].
        destruct (decide _); [discriminate|]. destruct (decide _); discriminate.
      * intros (rp & q & Hin). exfalso.
        destruct (decide _); [set_solver|]. destruct (decide _); set_solver.
    + split; [done|]. done.
Qed.

Lemma ServeHTTP_forwards_unreserved_paths_only_witness :
  let h := @New StoredGzip.codec "127.0.0.1" 7331 "http://localhost:8080" in
  ServeHTTP (bytes_of "reload()") None h "/index.html" Sample.get
  = [proxy_ServeHTTP (p h) Sample.get] /\
  Transport (p h) = New_Transport /\ ModifyResponse (p h) = @modifyResponse StoredGzip.codec.
Proof.
  intros h.
  apply (proj2 (@ServeHTTP_forwards_unreserved_paths_only StoredGzip.codec
                  (bytes_of "reload()") None "127.0.0.1" 7331 "http://localhost:8080"
                  "/index.html" Sample.get)).
  exists (p h), Sample.get.
  change (proxy_ServeHTTP (p h) Sample.get ∈ [proxy_ServeHTTP (p h) Sample.get]).
  left.
Defined.

(** X15. [ServeHTTP] sends an event to the SSE handler exactly for a POST
    to the events path; it then does what [SendSSE] does for the event
    "message" with the data "reload", and nothing else: it writes nothing to
    the response.  Any other method on that path but GET is answered 405. *)
Theorem ServeHTTP_broadcasts_reload_on_POST_only
    (script : list byte) (write_error : option error)
    (h : Handler) (path : string) (r : Request) :
  let acts := ServeHTTP script write_error h path r in
  ((path = "/_templ/reload/events"%string /\ Method r = "POST"%string) <->
   acts = SendSSE h "message" "reload") /\
  ((exists eventType data : string, sse_Send eventType data ∈ acts) ->
   acts = SendSSE h "message" "reload") /\
  (path = "/_templ/reload/events"%string ->
   Method r <> "GET"%string -> Method r <> "POST"%string ->
   acts = [http_Error "only GET or POST method allowed" 405]).
Proof.
  intros acts. subst acts. unfold ServeHTTP, SendSSE.
  destruct (decide (path = _)) as [->|Hs].
  - split; [|split].
    + split; [by intros [? _]|]. destruct write_error; discriminate.
    + intros (t & d & Hin). exfalso. destruct write_error; set_solver.
    + discriminate.
  - destruct (decide (path = _)) as [->|He].
    + destruct (decide (Method r = "GET"%string)) as [Hg|Hg].
      * split; [|split].
        -- split; [intros [_ Hp]; rewrite Hp in Hg; discriminate | discriminate].
        -- intros (t & d & Hin). exfalso. set_solver.
        -- done.
      * destruct (decide (Method r = "POST"%string)) as [Hp|Hp].
        -- split; [|split]; [done | done | done].
        -- split; [|split].
           ++ split; [by intros [_ ?] | discriminate].
           ++ intros (t & d & Hin). exfalso. set_solver.
           ++ done.
    + split; [|split].
      * split; [by intros [? _] | discriminate].
      * intros (t & d & Hin). exfalso. set_solver.
      * done.
Qed.

Lemma ServeHTTP_broadcasts_reload_on_POST_only_witness :
  let h := @New StoredGzip.codec "127.0.0.1" 7331 "http://localhost:8080" in
  ServeHTTP (bytes_of "reload()") None h "/_templ/reload/events" Sample.post
  = SendSSE h "message" "reload".
Proof.
  intros h.
  apply (proj1 (ServeHTTP_broadcasts_reload_on_POST_only (bytes_of "reload()") None h
                  "/_templ/reload/events" Sample.post)).
  split; reflexivity.
Defined.

Lemma string_append_assoc (s1 s2 s3 : string) :
  ((s1 ++ s2) ++ s3 = s1 ++ (s2 ++ s3))%string.
Proof.
  induction s1 as [|c s1 IH]; [done|].
  change (String c ((s1 ++ s2) ++ s3) = String c (s1 ++ (s2 ++ s3)))%string.
  by rewrite IH.
Qed.

(** X16. [NotifyProxy] for a host and a port addresses the URL of the
    handler that [New] builds for them, followed by the events path, with
    the method POST: the request for which [ServeHTTP] broadcasts the
    reload.  Its result is the error of building that request or of that
    exchange. *)
Theorem NotifyProxy_posts_to_the_events_path_of_the_handler `{Gzip}
    (http_NewRequest : string -> string -> Request + error)
    (DefaultClient_Do : Request -> option Response * option error)
    (script : list byte) (write_error : option error)
    (host : string) (port : Z) (target : string) :
  let h := New host port target in
  NotifyProxy http_NewRequest DefaultClient_Do host port
  = match http_NewRequest "POST"%string (HandlerURL h ++ "/_templ/reload/events")%string with
    | inr err => Some err
    | inl req => (DefaultClient_Do req).2
    end /\
  forall r : Request,
    Method r = "POST"%string ->
    ServeHTTP script write_error h "/_templ/reload/events" r = [sse_Send "message" "reload"].
Proof.
  intros h. split.
  - unfold NotifyProxy, h, New. cbn [HandlerURL].
    by rewrite !string_append_assoc.
  - intros r Hm. unfold ServeHTTP. rewrite Hm. done.
Qed.

Lemma NotifyProxy_posts_to_the_events_path_of_the_handler_witness :
  let h := @New StoredGzip.codec "localhost" 7331 "http://localhost:8080" in
  ServeHTTP (bytes_of "reload()") None h "/_templ/reload/events" Sample.post
  = [sse_Send "message" "reload"].
Proof.
  intros h.
  apply (proj2 (@NotifyProxy_posts_to_the_events_path_of_the_handler StoredGzip.codec
                  Sample.NewRequest (Sample.Do 200) (bytes_of "reload()") None
                  "localhost" 7331 "http://localhost:8080")).
  reflexivity.
Defined.
